(** * wal-g: WAL archival pipeline

    A shallow embedding of the parts of wal-g that the specification speaks
    about, and the properties proved of them:

    - WAL segment-name arithmetic ([NextWALFileName]);
    - the server-side-encryption check of [Configure];
    - the writer stack built by [S3TarBall.StartUpload];
    - the verification branch of [TarUploader.UploadWal];
    - the background uploader [BgUploader] of bguploader.go, as an
      interleaving semantics of its goroutines.

    Layout: all definitions come first, the lemmas and theorems follow. *)

From Stdlib Require Import ZArith NArith Ascii String List Lia Bool.
From stdpp Require Import base option list gmap strings.

Local Open Scope Z_scope.

(* ===================================================================== *)
(** * Part I: definitions *)
(* ===================================================================== *)

(** ** Results of fallible functions *)

(** Go functions returning [(T, error)] are embedded as functions into
    [result T]. *)
Inductive error : Type :=
| FormatError                               (* malformed segment name *)
| UnsetEnvVarError (names : list string)    (* [&UnsetEnvVarError{names}] *)
| ErrorString (msg : string)                (* [errors.New], [fmt.Errorf] *)
| Wrapped (cause : error) (msg : string)    (* [errors.Wrap], [errors.Wrapf] *)
| External (what : string).                 (* an error of a collaborator *)

Inductive result (A : Type) : Type :=
| Ok (a : A)
| Err (e : error).
Arguments Ok {A} a.
Arguments Err {A} e.

(** ** Strings as the Go code uses them *)

Definition chars (s : string) : list ascii := list_ascii_of_string s.
Definition str (l : list ascii) : string := string_of_list_ascii l.

(** [strings.HasSuffix(s, suffix)] *)
Definition HasSuffix (s suffix : string) : bool :=
  bool_decide (drop (length (chars s) - length (chars suffix)) (chars s) = chars suffix).

(** [strings.TrimSuffix(s, suffix)] *)
Definition TrimSuffix (s suffix : string) : string :=
  if HasSuffix s suffix
  then str (take (length (chars s) - length (chars suffix)) (chars s))
  else s.

(** [strings.Trim(s, cutset)] for a one-character cutset: all leading and
    trailing occurrences of [c] are removed. *)
Fixpoint trimLeft (c : ascii) (l : list ascii) : list ascii :=
  match l with
  | x :: l' => if bool_decide (x = c) then trimLeft c l' else l
  | [] => []
  end.

Definition Trim1 (s : string) (c : ascii) : string :=
  str (rev (trimLeft c (rev (trimLeft c (chars s))))).

(** ** WAL segment names (SegmentName arithmetic) *)

(** Value of one hexadecimal digit, as [strconv.ParseUint(_, 16, _)] reads
    it: both letter cases are digits. *)
Definition hexDigit (c : ascii) : option N :=
  let n := N_of_ascii c in
  if ((48 <=? n) && (n <=? 57))%N then Some (n - 48)%N
  else if ((65 <=? n) && (n <=? 70))%N then Some (n - 55)%N
  else if ((97 <=? n) && (n <=? 102))%N then Some (n - 87)%N
  else None.

Fixpoint parseHexAcc (acc : N) (l : list ascii) : option N :=
  match l with
  | [] => Some acc
  | c :: l' =>
      match hexDigit c with
      | Some d => parseHexAcc (acc * 16 + d)%N l'
      | None => None
      end
  end.

(** A non-empty run of hex digits. *)
Definition parseHex (l : list ascii) : option N :=
  match l with
  | [] => None
  | _ => parseHexAcc 0%N l
  end.

Definition hexChar (d : N) : ascii :=
  if (d <? 10)%N then ascii_of_N (48 + d) else ascii_of_N (55 + d).

(** The [k] low hex digits of [n], most significant first, upper case. *)
Fixpoint hexDigits (k : nat) (n : N) : list ascii :=
  match k with
  | O => []
  | S k' => hexDigits k' (n / 16)%N ++ [hexChar (n mod 16)%N]
  end.

(** The format [%08X] on a value below [2^32]. *)
Definition hex8 (n : N) : list ascii := hexDigits 8 n.

(** The three fields of a segment name: timeline, log file, segment. *)
Definition walFileFormat (tl log seg : N) : string :=
  str (hex8 tl ++ hex8 log ++ hex8 seg).

(** Segments per log file: [0x100000000 / (16 MiB)] = 256, so the segment
    field runs from 00 to FF. *)
Definition xLogSegmentsPerXLogId : N := 256.

(** Ceiling of the log-file counter (a 32-bit field). *)
Definition maxLogId : N := 4294967295.

(** Modelled from the spec: [ParseWALFileName] is not among the sources;
    only [TestNextWALFileName] is.  The name must be exactly 24 characters
    wide, each of the three 8-character fields must be hexadecimal, and (from
    the test on [0000000100000001000001FF]) the segment field must be below
    [xLogSegmentsPerXLogId]. *)
Definition ParseWALFileName (name : string) : result (N * N * N) :=
  let l := chars name in
  if bool_decide (length l = 24%nat) then
    match parseHex (take 8 l), parseHex (take 8 (drop 8 l)), parseHex (drop 16 l) with
    | Some tl, Some log, Some seg =>
        if (xLogSegmentsPerXLogId <=? seg)%N then Err FormatError
        else Ok (tl, log, seg)
    | _, _, _ => Err FormatError
    end
  else Err FormatError.

(** Modelled from the spec: [NextWALFileName] (the spec's [nextSegmentName])
    is not among the sources.  It increments the segment counter; at the
    segment counter's maximum it resets it to zero and increments the log-file
    counter; it fails with [FormatError] on a malformed name and when the
    increment would overflow the log-file counter's ceiling. *)
Definition NextWALFileName (name : string) : result string :=
  match ParseWALFileName name with
  | Err e => Err e
  | Ok (tl, log, seg) =>
      if (seg + 1 <? xLogSegmentsPerXLogId)%N then Ok (walFileFormat tl log (seg + 1))
      else if (log <? maxLogId)%N then Ok (walFileFormat tl (log + 1) 0)
      else Err FormatError
  end.

(** [errors.Wrap(err, msg)] on the error branch of a call. *)
Definition wrap {A} (r : result A) (msg : string) : result A :=
  match r with
  | Ok a => Ok a
  | Err e => Err (Wrapped e msg)
  end.

Definition bind_result {A B} (r : result A) (k : A -> result B) : result B :=
  match r with
  | Ok a => k a
  | Err e => Err e
  end.

Notation "'do' x <- r ; k" := (bind_result r (fun x => k))
  (at level 10, x name, r at level 100, k at level 200).

(** Calls of [log.Fatal]/[log.Fatalf] end the process: a function that may
    do so is embedded into [outcome]. *)
Inductive outcome (A : Type) : Type :=
| Returns (a : A)
| Fatal (msg : string).
Arguments Returns {A} a.
Arguments Fatal {A} msg.

(** ** Configure (upload.go) *)

(** The process environment, read by [os.LookupEnv] and [os.Getenv]. *)
Definition LookupEnv (env : gmap string string) (key : string) : option string :=
  env !! key.

Definition Getenv (env : gmap string string) (key : string) : string :=
  default ""%string (env !! key).

(** [strconv.ParseBool] *)
Definition ParseBool (s : string) : result bool :=
  if bool_decide (s ∈ ["1"; "t"; "T"; "TRUE"; "true"; "True"]%string) then Ok true
  else if bool_decide (s ∈ ["0"; "f"; "F"; "FALSE"; "false"; "False"]%string) then Ok false
  else Err (External "strconv.ParseBool: invalid syntax").

Record URL : Type := { Scheme : string; Host : string; Path : string }.

Record Prefix : Type := { Bucket : string; Server : string }.

(** [s3manager.Uploader] as [CreateUploader] configures it. *)
Record Uploader : Type := { PartSize : Z; Concurrency : Z }.

Record TarUploader : Type := {
  Upl : option Uploader;
  StorageClass : string;
  ServerSideEncryption : string;
  SSEKMSKeyId : string;
  Success : bool;
  bucket : string;
  server : string;
  region : string;
}.

Definition CreateUploader (partsize concurrency : Z) : Uploader :=
  {| PartSize := partsize; Concurrency := concurrency |}.

Definition set_StorageClass (v : string) (tu : TarUploader) : TarUploader :=
  {| Upl := Upl tu; StorageClass := v; ServerSideEncryption := ServerSideEncryption tu;
     SSEKMSKeyId := SSEKMSKeyId tu; Success := Success tu; bucket := bucket tu;
     server := server tu; region := region tu |}.

Definition set_ServerSideEncryption (v : string) (tu : TarUploader) : TarUploader :=
  {| Upl := Upl tu; StorageClass := StorageClass tu; ServerSideEncryption := v;
     SSEKMSKeyId := SSEKMSKeyId tu; Success := Success tu; bucket := bucket tu;
     server := server tu; region := region tu |}.

Definition set_SSEKMSKeyId (v : string) (tu : TarUploader) : TarUploader :=
  {| Upl := Upl tu; StorageClass := StorageClass tu;
     ServerSideEncryption := ServerSideEncryption tu;
     SSEKMSKeyId := v; Success := Success tu; bucket := bucket tu;
     server := server tu; region := region tu |}.

Definition set_Success (v : bool) (tu : TarUploader) : TarUploader :=
  {| Upl := Upl tu; StorageClass := StorageClass tu;
     ServerSideEncryption := ServerSideEncryption tu;
     SSEKMSKeyId := SSEKMSKeyId tu; Success := v; bucket := bucket tu;
     server := server tu; region := region tu |}.

Definition set_Upl (v : Uploader) (tu : TarUploader) : TarUploader :=
  {| Upl := Some v; StorageClass := StorageClass tu;
     ServerSideEncryption := ServerSideEncryption tu;
     SSEKMSKeyId := SSEKMSKeyId tu; Success := Success tu; bucket := bucket tu;
     server := server tu; region := region tu |}.

(** What [Configure] asks of its collaborators: the environment, the URL
    parser, the AWS credential chain, the bucket-region lookup, the session
    constructor, and the two helpers of this repository that are not among the
    sources ([NewTarUploader], [getMaxUploadConcurrency]). *)
Record ConfigureWorld : Type := {
  cw_env : gmap string string;
  cw_url_Parse : string -> result URL;
  cw_credentials_Get : result unit;
  cw_findS3BucketRegion : string -> result string;
  cw_NewSession : string -> result unit;
  cw_NewTarUploader : string -> string -> string -> TarUploader;
  cw_getMaxUploadConcurrency : Z -> Z;
}.

Definition with_env (env : gmap string string) (w : ConfigureWorld) : ConfigureWorld :=
  {| cw_env := env; cw_url_Parse := cw_url_Parse w;
     cw_credentials_Get := cw_credentials_Get w;
     cw_findS3BucketRegion := cw_findS3BucketRegion w;
     cw_NewSession := cw_NewSession w;
     cw_NewTarUploader := cw_NewTarUploader w;
     cw_getMaxUploadConcurrency := cw_getMaxUploadConcurrency w |}.

Definition sseKmsError : error :=
  ErrorString "Configure: WALG_S3_SSE_KMS_ID must be set iff using aws:kms encryption".

(** [u.Path[1:]] with one trailing slash removed. *)
Definition serverOfPath (path : string) : string :=
  let server := if bool_decide (0 < length (chars path))%nat then drop 1 (chars path) else [] in
  if bool_decide (0 < length server)%nat && bool_decide (last server = Some "/"%char)
  then str (take (length server - 1) server)
  else str server.

(** [Configure]: connects to S3 and creates an uploader. *)
Definition Configure (w : ConfigureWorld) : result (TarUploader * Prefix) :=
  let env := cw_env w in
  let waleS3Prefix := Getenv env "WALE_S3_PREFIX" in
  if bool_decide (waleS3Prefix = ""%string)
  then Err (UnsetEnvVarError ["WALE_S3_PREFIX"%string])
  else
    do u <- wrap (cw_url_Parse w waleS3Prefix) "Configure: failed to parse url";
    if bool_decide (Scheme u = ""%string) || bool_decide (Host u = ""%string)
    then Err (ErrorString "Missing url scheme and/or host")
    else
      let bucket := Host u in
      let server := serverOfPath (Path u) in
      do _ <- wrap (cw_credentials_Get w) "Configure: failed to get AWS credentials";
      let s3ForcePathStyleStr := Getenv env "AWS_S3_FORCE_PATH_STYLE" in
      do _ <- (if bool_decide (0 < length (chars s3ForcePathStyleStr))%nat
               then wrap (ParseBool s3ForcePathStyleStr)
                      "Configure: failed parse AWS_S3_FORCE_PATH_STYLE"
               else Ok false);
      do region <- (if bool_decide (Getenv env "AWS_REGION" = ""%string)
                    then wrap (cw_findS3BucketRegion w bucket)
                           "Configure: AWS_REGION is not set and s3:GetBucketLocation failed"
                    else Ok (Getenv env "AWS_REGION"));
      let pre := {| Bucket := bucket; Server := server |} in
      do _ <- wrap (cw_NewSession w region) "Configure: failed to create new session";
      let upload := cw_NewTarUploader w bucket server region in
      let con := cw_getMaxUploadConcurrency w 10 in
      let upload :=
        match LookupEnv env "WALG_S3_STORAGE_CLASS" with
        | Some storageClass => set_StorageClass storageClass upload
        | None => upload
        end in
      let serverSideEncryption := Getenv env "WALG_S3_SSE" in
      let upload :=
        match LookupEnv env "WALG_S3_SSE" with
        | Some v => set_ServerSideEncryption v upload
        | None => upload
        end in
      let sseKmsKeyId := Getenv env "WALG_S3_SSE_KMS_ID" in
      let upload :=
        match LookupEnv env "WALG_S3_SSE_KMS_ID" with
        | Some v => set_SSEKMSKeyId v upload
        | None => upload
        end in
      (* Only aws:kms implies sseKmsKeyId *)
      if Bool.eqb (bool_decide (serverSideEncryption = "aws:kms"%string))
                  (bool_decide (sseKmsKeyId = ""%string))
      then Err sseKmsError
      else Ok (set_Upl (CreateUploader (20 * 1024 * 1024) con) upload, pre).

(** The two ways in which mode and key identifier disagree. *)
Definition sse_mismatch (env : gmap string string) : Prop :=
  (Getenv env "WALG_S3_SSE" = "aws:kms"%string /\ Getenv env "WALG_S3_SSE_KMS_ID" = ""%string)
  \/ (Getenv env "WALG_S3_SSE" <> "aws:kms"%string /\ Getenv env "WALG_S3_SSE_KMS_ID" <> ""%string).

(** Setting or unsetting one variable. *)
Definition setenv (key : string) (v : option string) (env : gmap string string)
  : gmap string string :=
  match v with
  | Some x => <[key := x]> env
  | None => delete key env
  end.

(** A configuration that every collaborator accepts. *)
Definition sample_world : ConfigureWorld :=
  {| cw_env := {[ "WALE_S3_PREFIX"%string := "s3://bucket/server"%string;
                  "AWS_REGION"%string := "us-east-1"%string ]};
     cw_url_Parse := fun _ => Ok {| Scheme := "s3"; Host := "bucket"; Path := "/server" |};
     cw_credentials_Get := Ok tt;
     cw_findS3BucketRegion := fun _ => Ok "us-east-1"%string;
     cw_NewSession := fun _ => Ok tt;
     cw_NewTarUploader := fun b s r =>
       {| Upl := None; StorageClass := "STANDARD"; ServerSideEncryption := "";
          SSEKMSKeyId := ""; Success := false; bucket := b; server := s; region := r |};
     cw_getMaxUploadConcurrency := fun d => d |}.

(** ** Upload inputs (upload.go) *)

(** [s3manager.UploadInput] without its body; the body is passed along. *)
Record UploadInput : Type := {
  ui_Bucket : string;
  ui_Key : string;
  ui_StorageClass : string;
  ui_ServerSideEncryption : option string;
  ui_SSEKMSKeyId : option string;
}.

(** [TarUploader.createUploadInput] *)
Definition createUploadInput (tu : TarUploader) (path : string) : UploadInput :=
  {| ui_Bucket := bucket tu;
     ui_Key := path;
     ui_StorageClass := StorageClass tu;
     ui_ServerSideEncryption :=
       if bool_decide (ServerSideEncryption tu <> ""%string)
       then Some (ServerSideEncryption tu) else None;
     ui_SSEKMSKeyId :=
       if bool_decide (ServerSideEncryption tu <> ""%string)
          && bool_decide (SSEKMSKeyId tu <> ""%string)
       then Some (SSEKMSKeyId tu) else None |}.

(** ** The writer stack of StartUpload (upload.go) *)

(** A stream stage (the lz4 compressor, the encryptor): a state, what a
    [Write] of a chunk emits downstream, and what [Close] flushes. *)
Record stage : Type := {
  stage_state : Type;
  stage_init : stage_state;
  stage_write : stage_state -> list Byte.byte -> stage_state * list Byte.byte;
  stage_close : stage_state -> list Byte.byte;
}.

(** The chunks a stage emits when it is fed [chunks] and then closed. *)
Fixpoint stage_feed (st : stage) (s : stage_state st) (chunks : list (list Byte.byte))
  : list (list Byte.byte) :=
  match chunks with
  | [] => [stage_close st s]
  | c :: chunks' =>
      let '(s', out) := stage_write st s c in
      out :: stage_feed st s' chunks'
  end.

(** The stage as a function on whole streams of chunks. *)
Definition stage_run (st : stage) (chunks : list (list Byte.byte)) : list (list Byte.byte) :=
  stage_feed st (stage_init st) chunks.

(** Writers.  [PipeWriter] is the write end [pw] of [io.Pipe()]: it records
    the bytes that have entered the pipe, which are the bytes the uploader
    reads from [pr] and sends.  [StageWriter] is a stage writing into an
    underlying writer.  The cascades [Lz4CascadeClose] and
    [Lz4CascadeClose2] hold the lz4 writer together with the writers below
    it; the writers below are the ones the lz4 writer already writes into, so
    the chain is kept as one nested value. *)
Inductive writer : Type :=
| PipeWriter (sent : list Byte.byte) (closed : bool)
| StageWriter (st : stage) (s : stage_state st) (under : writer).

Fixpoint writer_Write (w : writer) (data : list Byte.byte) : writer :=
  match w with
  | PipeWriter sent closed =>
      if closed then w else PipeWriter (sent ++ data) closed
  | StageWriter st s under =>
      let '(s', out) := stage_write st s data in
      StageWriter st s' (writer_Write under out)
  end.

(** The state of a stage after it was fed [chunks]. *)
Fixpoint stage_after (st : stage) (s : stage_state st) (chunks : list (list Byte.byte))
  : stage_state st :=
  match chunks with
  | [] => s
  | c :: chunks' => stage_after st (fst (stage_write st s c)) chunks'
  end.

(** Writing the [pending] chunks and closing.  [Close] of a cascade closes
    the top stage, which flushes into the writer below, then closes the
    writers below in turn, the pipe last. *)
Fixpoint writer_finish (w : writer) (pending : list (list Byte.byte)) : writer :=
  match w with
  | PipeWriter sent closed =>
      PipeWriter (if closed then sent else sent ++ concat pending) true
  | StageWriter st s under =>
      StageWriter st (stage_after st s pending) (writer_finish under (stage_feed st s pending))
  end.

Definition writer_Close (w : writer) : writer := writer_finish w [].

(** The bytes that have reached the pipe. *)
Fixpoint wire (w : writer) : list Byte.byte :=
  match w with
  | PipeWriter sent _ => sent
  | StageWriter _ _ under => wire under
  end.

(** Whether the pipe under the stack has been closed. *)
Fixpoint pipe_closed (w : writer) : bool :=
  match w with
  | PipeWriter _ closed => closed
  | StageWriter _ _ under => pipe_closed under
  end.

(** The [Crypter] capability: [IsUsed] and [Encrypt]; [Encrypt] fails when
    no usable public key is configured. *)
Record Crypter : Type := {
  IsUsed : bool;
  Encrypt : result stage;
}.

Record S3TarBall : Type := {
  tb_tu : TarUploader;
  tb_bkupName : string;
  tb_number : Z;
}.

(** [S3TarBall.StartUpload]: the upload input handed to the uploading
    goroutine (whose body is the read end of the pipe) and the writer
    returned to the caller. *)
Definition StartUpload (lz4 : stage) (s : S3TarBall) (name : string) (crypter : Crypter)
  : outcome (UploadInput * writer) :=
  let pw := PipeWriter [] false in
  let tupl := tb_tu s in
  let path := (server tupl +:+ "/basebackups_005/" +:+ tb_bkupName s
               +:+ "/tar_partitions/" +:+ name)%string in
  let input := createUploadInput tupl path in
  if IsUsed crypter then
    match Encrypt crypter with
    | Err _ => Fatal "upload: encryption error"
    | Ok enc =>
        let wc := StageWriter enc (stage_init enc) pw in
        (* &Lz4CascadeClose2{lz4.NewWriter(wc), wc, pw} *)
        Returns (input, StageWriter lz4 (stage_init lz4) wc)
    end
  else
    (* &Lz4CascadeClose{lz4.NewWriter(pw), pw} *)
    Returns (input, StageWriter lz4 (stage_init lz4) pw).

(** Writing the chunks of [source] one after the other, then closing. *)
Definition write_all (w : writer) (source : list (list Byte.byte)) : writer :=
  writer_Close (fold_left writer_Write source w).

(** Two concrete stages, used to run the definitions: one that buffers its
    input and emits it when closed, one that frames every chunk it is given. *)
Definition buffering_stage : stage :=
  {| stage_state := list Byte.byte;
     stage_init := [];
     stage_write := fun s c => (s ++ c, []);
     stage_close := fun s => s |}.

Definition framing_stage : stage :=
  {| stage_state := unit;
     stage_init := tt;
     stage_write := fun _ c => (tt, Byte.x01 :: c);
     stage_close := fun _ => [Byte.xff] |}.

Definition sample_tarball : S3TarBall :=
  {| tb_tu := {| Upl := None; StorageClass := "STANDARD"; ServerSideEncryption := "";
                 SSEKMSKeyId := ""; Success := false; bucket := "bucket";
                 server := "server"; region := "region" |};
     tb_bkupName := "base_000000010000000000000051";
     tb_number := 1 |}.

(** ** UploadWal (upload.go) *)

(** Calls that leave the process, in the order they are made. *)
Inductive event : Type :=
| EvOpen (path : string)                 (* [os.Open] *)
| EvUpload (key : string)                (* [upl.Upload] *)
| EvGetETag (key : string)               (* [Archive.GetETag] *)
| EvLog (msg : string).                  (* [log.Printf] *)

Definition is_upload (e : event) : bool :=
  match e with EvUpload _ => true | _ => false end.

Definition is_getETag (e : event) : bool :=
  match e with EvGetETag _ => true | _ => false end.

(** What [UploadWal] asks of its collaborators.  [uw_Upload] is the S3
    uploader: given the input and the body it tells how many bytes of the body
    it read and whether it failed.  [uw_Compress] is the output stream of
    [LzPipeWriter.Compress]; [uw_md5] the hex digest the md5 reader reports. *)
Record UploadWalWorld : Type := {
  uw_Open : string -> result (list Byte.byte);
  uw_Compress : list Byte.byte -> list Byte.byte;
  uw_Upload : UploadInput -> list Byte.byte -> nat * option error;
  uw_GetETag : string -> result (option string);
  uw_md5 : list Byte.byte -> string;
  uw_sanitizePath : string -> string;
  uw_Base : string -> string;
}.

(** [TarUploader.upload]: one call of the uploader; sets [Success] when it
    succeeds, logs and returns the error otherwise. *)
Definition TarUploader_upload (w : UploadWalWorld) (tu : TarUploader)
    (input : UploadInput) (body : list Byte.byte) (path : string)
  : TarUploader * nat * option error * list event :=
  match uw_Upload w input body with
  | (n, None) =>
      (set_Success true tu, n, None, [EvUpload (ui_Key input)])
  | (n, Some e) =>
      (tu, n, Some e, [EvUpload (ui_Key input); EvLog ("upload: failed to upload " +:+ path)])
  end.

(** The key a WAL file is stored under. *)
Definition walKey (w : UploadWalWorld) (tu : TarUploader) (path : string) : string :=
  uw_sanitizePath w (server tu +:+ "/wal_005/" +:+ uw_Base w path +:+ ".lz4").

(** The double quote, the cutset with which [strings.Trim] trims the ETag. *)
Definition quote : ascii := "034"%char.

(** [TarUploader.UploadWal]: the calls made and the outcome, which is
    either the returned pair [(p, err)] or the end of the process in
    [log.Fatalf]. *)
Definition UploadWal (w : UploadWalWorld) (tu : TarUploader) (path : string)
    (pre : Prefix) (verify : bool)
  : list event * outcome (string * option error) :=
  match uw_Open w path with
  | Err e =>
      ([EvOpen path],
       Returns (""%string, Some (Wrapped e ("UploadWal: failed to open file " +:+ path))))
  | Ok f =>
      let output := uw_Compress w f in                       (* lz.Output *)
      let p := walKey w tu path in
      let input := createUploadInput tu p in
      (* the uploading goroutine, joined by tu.Finish() *)
      let '(_, n, err, evs) := TarUploader_upload w tu input output path in
      let trace := EvOpen path :: evs in
      if verify then
        let sum := uw_md5 w (take n output) in               (* md5Reader.Sum() *)
        match uw_GetETag w p with
        | Err e => (trace ++ [EvGetETag p], Fatal "Unable to verify WAL")
        | Ok None => (trace ++ [EvGetETag p], Fatal "Unable to verify WAL: nil ETag ")
        | Ok (Some eTag) =>
            let trimETag := Trim1 eTag quote in
            if bool_decide (sum <> trimETag)
            then (trace ++ [EvGetETag p], Fatal "WAL verification failed")
            else (trace ++ [EvGetETag p], Returns (p, err))
        end
      else (trace, Returns (p, err))
  end.

(** The checksum computed locally during an upload of [path]: the digest of
    the bytes the uploader read from the body. *)
Definition localSum (w : UploadWalWorld) (tu : TarUploader) (path : string)
    (f : list Byte.byte) : string :=
  let output := uw_Compress w f in
  uw_md5 w (take (fst (uw_Upload w (createUploadInput tu (walKey w tu path)) output)) output).

(** A storage that reports the ETag [etag] for every object, with an
    uploader that reads the whole body. *)
Definition sample_storage (etag : string) : UploadWalWorld :=
  {| uw_Open := fun _ => Ok [Byte.x61; Byte.x62];
     uw_Compress := fun f => f;
     uw_Upload := fun _ body => (length body, None);
     uw_GetETag := fun _ => Ok (Some etag);
     uw_md5 := fun _ => "900150983cd24fb0d6963f7d28e17f72"%string;
     uw_sanitizePath := fun p => p;
     uw_Base := fun p => p |}.

(** ** The background uploader (bguploader.go) *)

(** *** Paths *)

(** [filepath.Join] on non-empty, cleaned components. *)
Fixpoint filepath_Join (elems : list string) : string :=
  match elems with
  | [] => ""
  | [e] => e
  | e :: rest => e +:+ "/" +:+ filepath_Join rest
  end.

(** Splitting a cleaned path at its last slash. *)
Fixpoint splitLast (l : list ascii) (dir base : list ascii) : list ascii * list ascii :=
  match l with
  | [] => (dir, base)
  | c :: l' =>
      if bool_decide (c = "/"%char)
      then splitLast l' (dir ++ base ++ [c]) []
      else splitLast l' dir (base ++ [c])
  end.

(** [filepath.Base] and [filepath.Dir] on a cleaned path with a directory
    part, as the path of a WAL file is. *)
Definition filepath_Base (path : string) : string :=
  str (snd (splitLast (chars path) [] [])).

Definition filepath_Dir (path : string) : string :=
  let d := fst (splitLast (chars path) [] []) in
  str (take (length d - 1) d).

Definition readySuffix : string := ".ready".
Definition archiveStatus : string := "archive_status".
Definition done : string := ".done".

(** *** The shared object *)

(** [int32] arithmetic of [sync/atomic]: addition wraps around. *)
Definition wrap32 (z : Z) : Z := (z + 2147483648) mod 4294967296 - 2147483648.

Definition AddInt32 (x delta : Z) : Z := wrap32 (x + delta).

Definition int32 (z : Z) : Prop := -2147483648 <= z <= 2147483647.

(** [BgUploader].  The fields [tu] and [pre] are only handed on to
    [UploadWALFile] and are left out; [running] is the counter of the
    [sync.WaitGroup]; [mutex] is part of the scheduler state below. *)
Record BgUploader : Type := {
  dir : string;
  parallelWorkers : Z;
  maxParallelWorkers : Z;
  running : Z;
  started : gmap string string;
  totalUploaded : Z;
  verify : bool;
}.

Definition set_parallelWorkers (v : Z) (u : BgUploader) : BgUploader :=
  {| dir := dir u; parallelWorkers := v; maxParallelWorkers := maxParallelWorkers u;
     running := running u; started := started u; totalUploaded := totalUploaded u;
     verify := verify u |}.

Definition set_maxParallelWorkers (v : Z) (u : BgUploader) : BgUploader :=
  {| dir := dir u; parallelWorkers := parallelWorkers u; maxParallelWorkers := v;
     running := running u; started := started u; totalUploaded := totalUploaded u;
     verify := verify u |}.

Definition set_running (v : Z) (u : BgUploader) : BgUploader :=
  {| dir := dir u; parallelWorkers := parallelWorkers u;
     maxParallelWorkers := maxParallelWorkers u;
     running := v; started := started u; totalUploaded := totalUploaded u;
     verify := verify u |}.

Definition set_started (v : gmap string string) (u : BgUploader) : BgUploader :=
  {| dir := dir u; parallelWorkers := parallelWorkers u;
     maxParallelWorkers := maxParallelWorkers u;
     running := running u; started := v; totalUploaded := totalUploaded u;
     verify := verify u |}.

Definition set_totalUploaded (v : Z) (u : BgUploader) : BgUploader :=
  {| dir := dir u; parallelWorkers := parallelWorkers u;
     maxParallelWorkers := maxParallelWorkers u;
     running := running u; started := started u; totalUploaded := v;
     verify := verify u |}.

(** The zero value [BgUploader{}]. *)
Definition newBgUploader : BgUploader :=
  {| dir := ""; parallelWorkers := 0; maxParallelWorkers := 0; running := 0;
     started := ∅; totalUploaded := 0; verify := false |}.

(** [BgUploader.Start], up to the [go scanOnce(u)] it ends with. *)
Definition Start (u : BgUploader) (walFilePath : string) (maxPW : Z) (vfy : bool)
  : BgUploader :=
  {| dir := filepath_Dir walFilePath;
     parallelWorkers := parallelWorkers u;
     maxParallelWorkers := maxPW;
     running := running u;
     started := {[ (filepath_Base walFilePath +:+ readySuffix)%string := walFilePath ]};
     totalUploaded := totalUploaded u;
     verify := vfy |}.

Definition shouldKeepScanning (u : BgUploader) : bool :=
  (0 <? maxParallelWorkers u) && (totalUploaded u <? 1024).

Definition haveNoSlots (u : BgUploader) : bool :=
  maxParallelWorkers u <=? parallelWorkers u.

(** One pass through the body of the loop of [scanOnce], for the directory
    entry [name]: the loop is left ([Break]), or it goes on with the updated
    object and, when a worker was spawned, the file handed to it. *)
Inductive scan_step : Type :=
| Break
| Next (u : BgUploader) (spawned : option string).

Definition scan_file (u : BgUploader) (name : string) : scan_step :=
  if haveNoSlots u then Break
  else if negb (HasSuffix name readySuffix) then Next u None
  else if bool_decide (is_Some (started u !! name)) then Next u None
  else
    let u := set_started (<[name := name]> (started u)) u in
    if shouldKeepScanning u then
      let u := set_running (running u + 1) u in
      let u := set_parallelWorkers (AddInt32 (parallelWorkers u) 1) u in
      Next u (Some name)
    else Next u None.

(** The whole loop of [scanOnce] over a listing, run without interruption:
    the final object and the files handed to new workers, in order. *)
Fixpoint scan_files (u : BgUploader) (files : list string) : BgUploader * list string :=
  match files with
  | [] => (u, [])
  | name :: rest =>
      match scan_file u name with
      | Break => (u, [])
      | Next u' spawned =>
          let '(u'', more) := scan_files u' rest in
          (u'', from_option (fun f => [f]) [] spawned ++ more)
      end
  end.

(** *** Goroutines *)

(** Where a worker ([BgUploader.Upload]) stands: before the call named. *)
Inductive worker_pc : Type :=
| WUpload        (* UploadWALFile(...) *)
| WRename        (* os.Rename(ready, done) *)
| WAddTotal      (* atomic.AddInt32(&u.totalUploaded, 1) *)
| WScan          (* scanOnce(u), from its Lock to its Unlock *)
| WDecrement     (* atomic.AddInt32(&u.parallelWorkers, -1) *)
| WDone          (* u.running.Done() *)
| WExited.

Record worker : Type := { w_file : string; w_pc : worker_pc }.

(** Who runs [scanOnce]: the goroutine of [Start], or worker [i]. *)
Inductive scanner : Type :=
| SInit
| SWorker (i : nat).

Inductive scan_pc : Type :=
| ScanReadDir                      (* ioutil.ReadDir(...) *)
| ScanLoop (files : list string).  (* the entries still to be visited *)

Inductive stop_pc : Type :=
| StopStore                        (* atomic.StoreInt32(&u.maxParallelWorkers, 0) *)
| StopWait.                        (* u.running.Wait() *)

(** [u.mutex]: free, or held inside [scanOnce], or held inside [Stop].  The
    holder's position in its critical section is kept with the lock. *)
Inductive mutex_state : Type :=
| Unlocked
| LockedByScan (who : scanner) (pc : scan_pc)
| LockedByStop (pc : stop_pc).

(** The caller of [Start] and [Stop]. *)
Inductive main_pc : Type :=
| MNew           (* before u.Start(...) *)
| MStarted       (* between Start and Stop *)
| MStopLoop      (* in the loop of Stop *)
| MStopLock      (* past the loop, from u.mutex.Lock() to the return *)
| MStopped.

(** The goroutine [go scanOnce(u)] of [Start]. *)
Inductive init_pc : Type :=
| INone
| IScan
| IExited.

Global Instance worker_pc_eq_dec : EqDecision worker_pc.
Proof. solve_decision. Defined.

Global Instance scanner_eq_dec : EqDecision scanner.
Proof. solve_decision. Defined.

Global Instance scan_pc_eq_dec : EqDecision scan_pc.
Proof. solve_decision. Defined.

Global Instance stop_pc_eq_dec : EqDecision stop_pc.
Proof. solve_decision. Defined.

Global Instance mutex_state_eq_dec : EqDecision mutex_state.
Proof. solve_decision. Defined.

Global Instance main_pc_eq_dec : EqDecision main_pc.
Proof. solve_decision. Defined.

Global Instance init_pc_eq_dec : EqDecision init_pc.
Proof. solve_decision. Defined.

Global Instance int32_dec z : Decision (int32 z).
Proof. unfold int32. apply _. Defined.

Record state : Type := {
  st_u : BgUploader;
  st_mutex : mutex_state;
  st_main : main_pc;
  st_init : init_pc;
  st_workers : list worker;        (* every [go u.Upload(f)], in order *)
  st_fs : gset string;             (* the paths that exist *)
  st_log : list string;            (* what [log.Print] wrote *)
}.

Definition set_u (v : BgUploader) (s : state) : state :=
  {| st_u := v; st_mutex := st_mutex s; st_main := st_main s; st_init := st_init s;
     st_workers := st_workers s; st_fs := st_fs s; st_log := st_log s |}.

Definition set_mutex (v : mutex_state) (s : state) : state :=
  {| st_u := st_u s; st_mutex := v; st_main := st_main s; st_init := st_init s;
     st_workers := st_workers s; st_fs := st_fs s; st_log := st_log s |}.

Definition set_main (v : main_pc) (s : state) : state :=
  {| st_u := st_u s; st_mutex := st_mutex s; st_main := v; st_init := st_init s;
     st_workers := st_workers s; st_fs := st_fs s; st_log := st_log s |}.

Definition set_init (v : init_pc) (s : state) : state :=
  {| st_u := st_u s; st_mutex := st_mutex s; st_main := st_main s; st_init := v;
     st_workers := st_workers s; st_fs := st_fs s; st_log := st_log s |}.

Definition set_workers (v : list worker) (s : state) : state :=
  {| st_u := st_u s; st_mutex := st_mutex s; st_main := st_main s; st_init := st_init s;
     st_workers := v; st_fs := st_fs s; st_log := st_log s |}.

Definition set_fs (v : gset string) (s : state) : state :=
  {| st_u := st_u s; st_mutex := st_mutex s; st_main := st_main s; st_init := st_init s;
     st_workers := st_workers s; st_fs := v; st_log := st_log s |}.

Definition set_log (v : list string) (s : state) : state :=
  {| st_u := st_u s; st_mutex := st_mutex s; st_main := st_main s; st_init := st_init s;
     st_workers := st_workers s; st_fs := st_fs s; st_log := v |}.

(** A fresh daemon over a file system. *)
Definition initial (fs : gset string) : state :=
  {| st_u := newBgUploader; st_mutex := Unlocked; st_main := MNew; st_init := INone;
     st_workers := []; st_fs := fs; st_log := [] |}.

(** The names for which an upload worker was dispatched, in order. *)
Definition dispatched (s : state) : list string := map w_file (st_workers s).

(** *** Steps *)

(** One atomic step of one goroutine, with what the environment answers:
    the listing [ioutil.ReadDir] returns (the status directory is written by
    the database server meanwhile, so a listing is an input), and whether
    [os.Rename] succeeds. *)
Inductive label : Type :=
| LStart (walFilePath : string) (maxPW : Z) (vfy : bool)
| LStop                                    (* Stop is called *)
| LStopLoad                                (* the loop condition of Stop *)
| LStopLock
| LStopStore
| LStopWait                                (* Wait returns, Unlock, return *)
| LScanLock (who : scanner)
| LScanReadDir (who : scanner) (r : option (list string))
| LScanFile (who : scanner)                (* one pass of the loop, or its end *)
| LUploadWAL (i : nat)                     (* UploadWALFile returns *)
| LRename (i : nat) (ok : bool)
| LAddTotal (i : nat)
| LDecrement (i : nat)
| LWgDone (i : nat).

Definition set_pc (i : nat) (pc : worker_pc) (s : state) : state :=
  set_workers (alter (fun w => {| w_file := w_file w; w_pc := pc |}) i (st_workers s)) s.

(** The worker [i], when it stands at [pc]. *)
Definition worker_at (i : nat) (pc : worker_pc) (s : state) : option worker :=
  match st_workers s !! i with
  | Some w => if bool_decide (w_pc w = pc) then Some w else None
  | None => None
  end.

(** Whether [who] is about to call, or is inside, [scanOnce]. *)
Definition scanning (who : scanner) (s : state) : bool :=
  match who with
  | SInit => bool_decide (st_init s = IScan)
  | SWorker i => bool_decide (is_Some (worker_at i WScan s))
  end.

(** [scanOnce] returns: the deferred [Unlock], and the caller goes on. *)
Definition scan_return (who : scanner) (s : state) : state :=
  let s := set_mutex Unlocked s in
  match who with
  | SInit => set_init IExited s
  | SWorker i => set_pc i WDecrement s
  end.

Definition readyPath (u : BgUploader) (name : string) : string :=
  filepath_Join [dir u; archiveStatus; name].

Definition donePath (u : BgUploader) (name : string) : string :=
  filepath_Join [dir u; archiveStatus; (TrimSuffix name readySuffix +:+ done)%string].

Definition exec (l : label) (s : state) : option state :=
  match l with
  | LStart walFilePath maxPW vfy =>
      if bool_decide (st_main s = MNew /\ int32 maxPW) then
        if maxPW <? 1 then Some (set_main MStarted s)
        else Some (set_init IScan (set_main MStarted
                     (set_u (Start (st_u s) walFilePath maxPW vfy) s)))
      else None
  | LStop =>
      if bool_decide (st_main s = MStarted) then Some (set_main MStopLoop s) else None
  | LStopLoad =>
      if bool_decide (st_main s = MStopLoop) then
        if bool_decide (parallelWorkers (st_u s) <> 0)
        then Some s                                   (* time.Sleep, then again *)
        else Some (set_main MStopLock s)
      else None
  | LStopLock =>
      if bool_decide (st_main s = MStopLock /\ st_mutex s = Unlocked)
      then Some (set_mutex (LockedByStop StopStore) s)
      else None
  | LStopStore =>
      if bool_decide (st_mutex s = LockedByStop StopStore)
      then Some (set_mutex (LockedByStop StopWait)
                   (set_u (set_maxParallelWorkers 0 (st_u s)) s))
      else None
  | LStopWait =>
      if bool_decide (st_mutex s = LockedByStop StopWait /\ running (st_u s) = 0)
      then Some (set_main MStopped (set_mutex Unlocked s))
      else None
  | LScanLock who =>
      if bool_decide (st_mutex s = Unlocked) && scanning who s
      then Some (set_mutex (LockedByScan who ScanReadDir) s)
      else None
  | LScanReadDir who r =>
      if bool_decide (st_mutex s = LockedByScan who ScanReadDir) then
        match r with
        | None =>
            Some (scan_return who
                    (set_log (st_log s ++ ["Error of parallel upload: "%string]) s))
        | Some files => Some (set_mutex (LockedByScan who (ScanLoop files)) s)
        end
      else None
  | LScanFile who =>
      match st_mutex s with
      | LockedByScan who' (ScanLoop files) =>
          if bool_decide (who' = who) then
            match files with
            | [] => Some (scan_return who s)
            | name :: rest =>
                match scan_file (st_u s) name with
                | Break => Some (scan_return who s)
                | Next u' spawned =>
                    let s := set_u u' s in
                    let s :=
                      match spawned with
                      | Some f =>                      (* go u.Upload(f) *)
                          set_workers (st_workers s ++ [{| w_file := f; w_pc := WUpload |}]) s
                      | None => s
                      end in
                    Some (set_mutex (LockedByScan who (ScanLoop rest)) s)
                end
            end
          else None
      | _ => None
      end
  | LUploadWAL i =>
      match worker_at i WUpload s with
      | Some _ => Some (set_pc i WRename s)
      | None => None
      end
  | LRename i ok =>
      match worker_at i WRename s with
      | Some w =>
          let s :=
            if ok
            then set_fs ({[ donePath (st_u s) (w_file w) ]}
                           ∪ (st_fs s ∖ {[ readyPath (st_u s) (w_file w) ]})) s
            else set_log (st_log s ++ ["Error renaming .ready to .done: "%string]) s in
          Some (set_pc i WAddTotal s)
      | None => None
      end
  | LAddTotal i =>
      match worker_at i WAddTotal s with
      | Some _ =>
          Some (set_pc i WScan
                  (set_u (set_totalUploaded (AddInt32 (totalUploaded (st_u s)) 1) (st_u s)) s))
      | None => None
      end
  | LDecrement i =>
      match worker_at i WDecrement s with
      | Some _ =>
          Some (set_pc i WDone
                  (set_u (set_parallelWorkers (AddInt32 (parallelWorkers (st_u s)) (-1))
                            (st_u s)) s))
      | None => None
      end
  | LWgDone i =>
      match worker_at i WDone s with
      | Some _ =>
          if bool_decide (0 < running (st_u s))      (* a negative counter panics *)
          then Some (set_pc i WExited (set_u (set_running (running (st_u s) - 1) (st_u s)) s))
          else None
      | None => None
      end
  end.

(** A schedule, run from a state; [None] when a step is not enabled. *)
Fixpoint run (ls : list label) (s : state) : option state :=
  match ls with
  | [] => Some s
  | l :: ls' =>
      match exec l s with
      | Some s' => run ls' s'
      | None => None
      end
  end.

Definition reachable (s : state) : Prop :=
  exists fs ls, run ls (initial fs) = Some s.

(** *** Bookkeeping for the invariants *)

(** Workers counted in [parallelWorkers]: those that have not yet run their
    decrement. *)
Definition holds_slot (pc : worker_pc) : bool :=
  match pc with
  | WUpload | WRename | WAddTotal | WScan | WDecrement => true
  | WDone | WExited => false
  end.

(** Workers counted in the wait group: those that have not yet called
    [Done]. *)
Definition alive (pc : worker_pc) : bool :=
  match pc with
  | WExited => false
  | _ => true
  end.

(** Workers that will still increment [totalUploaded]. *)
Definition owes_total (pc : worker_pc) : bool :=
  match pc with
  | WUpload | WRename | WAddTotal => true
  | _ => false
  end.

Fixpoint count_pc (P : worker_pc -> bool) (ws : list worker) : Z :=
  match ws with
  | [] => 0
  | w :: ws' => (if P (w_pc w) then 1 else 0) + count_pc P ws'
  end.

(** [Stop] has stored 0 into [maxParallelWorkers]. *)
Definition stop_stored (s : state) : bool :=
  bool_decide (st_mutex s = LockedByStop StopWait) || bool_decide (st_main s = MStopped).

(** The limit in force after [Start] was called with [maxPW]. *)
Definition configured (maxPW : Z) : Z := if maxPW <? 1 then 0 else maxPW.

(** What holds of every state after [Start], for the limit [cfg] it
    configured. *)
Record Inv (cfg : Z) (s : state) : Prop := {
  I_main : st_main s <> MNew;
  I_cfg : 0 <= cfg <= 2147483647;
  I_max : maxParallelWorkers (st_u s) = if stop_stored s then 0 else cfg;
  I_pw : parallelWorkers (st_u s) = count_pc holds_slot (st_workers s);
  I_run : running (st_u s) = count_pc alive (st_workers s);
  I_le : parallelWorkers (st_u s) <= cfg;
  I_nodup : NoDup (dispatched s);
  I_started : forall name, In name (dispatched s) -> is_Some (started (st_u s) !! name);
  I_stoplock : forall pc, st_mutex s = LockedByStop pc -> st_main s = MStopLock;
  I_scan : forall who pc, st_mutex s = LockedByScan who pc -> scanning who s = true;
  I_stopped : st_main s = MStopped -> running (st_u s) = 0;
}.

(** *** Sample schedules *)

Definition sample_walFilePath : string := "/pg/pg_xlog/000000010000000000000051".
Definition sample_marker : string := "000000010000000000000052.ready".

(** [Stop] is called right after [Start]; the goroutine of [Start] scans
    and hands [sample_marker] to a worker after [Stop] has left its loop and
    before [Stop] takes the mutex. *)
Definition stop_race : list label :=
  [LStart sample_walFilePath 2 false; LStop; LStopLoad; LScanLock SInit;
   LScanReadDir SInit (Some [sample_marker]); LScanFile SInit; LScanFile SInit;
   LStopLock; LStopStore].

(** The worker of [stop_race] goes on up to its call of [scanOnce]. *)
Definition stop_deadlock : list label :=
  stop_race ++ [LUploadWAL 0; LRename 0 true; LAddTotal 0].

(** One scan that dispatches [sample_marker], and the worker's own rescan
    of a directory that still lists it. *)
Definition rescan : list label :=
  [LStart sample_walFilePath 2 false; LScanLock SInit;
   LScanReadDir SInit (Some [sample_marker]); LScanFile SInit; LScanFile SInit].

Definition rescan_more : list label :=
  [LUploadWAL 0; LRename 0 false; LAddTotal 0; LScanLock (SWorker 0);
   LScanReadDir (SWorker 0) (Some [sample_marker]); LScanFile (SWorker 0);
   LScanFile (SWorker 0); LDecrement 0; LWgDone 0].

(** The state a schedule leads to (the state itself when a step of the
    schedule is not enabled). *)
Definition after (ls : list label) (s : state) : state := default s (run ls s).

(** The lifetime counter under a limit [cfg] small enough for the counter
    not to wrap around: the uploads that workers still owe fit below the
    cap plus the limit. *)
Record Cap (cfg : Z) (s : state) : Prop := {
  C_cfg : cfg <= 2147483647 - 1024;
  C_nonneg : 0 <= totalUploaded (st_u s);
  C_bound : totalUploaded (st_u s) + count_pc owes_total (st_workers s) <= 1023 + cfg;
}.

(** A state that satisfies the invariants with the lifetime counter at the
    cap: the one worker still running rescans a directory and stands before
    the unseen marker [sample_marker]. *)
Definition capped : state :=
  {| st_u := {| dir := "/pg/pg_xlog"; parallelWorkers := 1; maxParallelWorkers := 2;
                running := 1;
                started :=
                  <[ "000000010000000000000050.ready"%string :=
                       "000000010000000000000050.ready"%string ]>
                    {[ "000000010000000000000051.ready"%string := sample_walFilePath ]};
                totalUploaded := 1024; verify := false |};
     st_mutex := LockedByScan (SWorker 0) (ScanLoop [sample_marker]);
     st_main := MStarted; st_init := IExited;
     st_workers := [{| w_file := "000000010000000000000050.ready"; w_pc := WScan |}];
     st_fs := {[ filepath_Join ["/pg/pg_xlog"; archiveStatus; sample_marker] ]};
     st_log := [] |}.


(** *** More sample schedules *)

(** A scan and the whole run of the worker it dispatched, then [Stop]. *)
Definition stop_clean : list label :=
  rescan ++ rescan_more ++ [LStop; LStopLoad; LStopLock; LStopStore; LStopWait].

(** The same, up to the moment [Stop] holds the mutex. *)
Definition stop_locked : list label :=
  rescan ++ rescan_more ++ [LStop; LStopLoad; LStopLock].

(** A listing with a file that is no marker, a marker listed twice, the
    marker of the segment being archived, and more markers than slots. *)
Definition sample_listing : list string :=
  ["000000010000000000000050.done"; sample_marker; sample_marker;
   "000000010000000000000051.ready"; "000000010000000000000053.ready";
   "000000010000000000000054.ready"]%string.

(** [findS3BucketRegion]: the session for us-east-1 and the answer of
    [GetBucketLocation] are its collaborators; a bucket in US Standard is
    reported with no location constraint. *)
Definition findS3BucketRegion (newSession : string -> result unit)
    (getBucketLocation : string -> result (option string)) (bucket : string)
  : result string :=
  do _ <- newSession "us-east-1"%string;
  do output <- getBucketLocation bucket;
  match output with
  | None => Ok "us-east-1"%string
  | Some location => Ok location
  end.

(* ===================================================================== *)
(** * Part II: lemmas and theorems *)
(* ===================================================================== *)

(** ** Segment names *)

Example NextWALFileName_tests :
  NextWALFileName "000000010000000000000051" = Ok "000000010000000000000052"%string
  /\ NextWALFileName "00000001000000000000005F" = Ok "000000010000000000000060"%string
  /\ NextWALFileName "0000000100000001000000FF" = Ok "000000010000000200000000"%string
  /\ NextWALFileName "0000000100000001000001FF" = Err FormatError
  /\ NextWALFileName "00000001000ZZ001000000FF" = Err FormatError
  /\ NextWALFileName "00000001000001000000FF" = Err FormatError
  /\ NextWALFileName "asdfasdf" = Err FormatError.
Proof. repeat split; vm_compute; reflexivity. Qed.

Lemma chars_str l : chars (str l) = l.
Proof. apply list_ascii_of_string_of_list_ascii. Qed.


Lemma hexDigit_hexChar d : (d < 16)%N -> hexDigit (hexChar d) = Some d.
Proof.
  intros Hd.
  assert (Hcases : In d (map N.of_nat (seq 0 16))).
  { apply in_map_iff. exists (N.to_nat d). split; [lia|]. apply in_seq. lia. }
  simpl in Hcases.
  repeat (destruct Hcases as [<-|Hcases]; [vm_compute; reflexivity|]).
  destruct Hcases.
Qed.

Lemma hexDigit_lt c d : hexDigit c = Some d -> (d < 16)%N.
Proof.
  unfold hexDigit. intros H. cbv zeta in H.
  repeat case_match; simplify_eq;
    repeat match goal with
           | E : (_ && _)%bool = true |- _ => apply andb_prop in E as [? ?]
           end; rewrite ?N.leb_le in *; lia.
Qed.

Lemma parseHexAcc_app acc l1 l2 :
  parseHexAcc acc (l1 ++ l2) =
  match parseHexAcc acc l1 with
  | Some a => parseHexAcc a l2
  | None => None
  end.
Proof.
  revert acc. induction l1 as [|c l1 IH]; intros acc; simpl; [reflexivity|].
  destruct (hexDigit c); [apply IH|reflexivity].
Qed.

Lemma length_hexDigits k n : length (hexDigits k n) = k.
Proof.
  revert n. induction k as [|k IH]; intros n; simpl; [reflexivity|].
  rewrite length_app, IH. simpl. lia.
Qed.

Lemma parseHexAcc_hexDigits k n acc :
  parseHexAcc acc (hexDigits k n) = Some (acc * 16 ^ N.of_nat k + n mod 16 ^ N.of_nat k)%N.
Proof.
  revert n acc. induction k as [|k IH]; intros n acc.
  - simpl. rewrite N.mod_1_r. f_equal. lia.
  - cbn [hexDigits]. rewrite parseHexAcc_app, IH. cbn [parseHexAcc].
    rewrite hexDigit_hexChar by (apply N.mod_lt; lia).
    f_equal. rewrite Nat2N.inj_succ, N.pow_succ_r'.
    set (p := (16 ^ N.of_nat k)%N).
    assert (Hp : (0 < p)%N) by (apply N.neq_0_lt_0, N.pow_nonzero; lia).
    rewrite (N.Div0.mod_mul_r n 16 p).
    lia.
Qed.

Lemma parseHex_hex8 n : (n < 4294967296)%N -> parseHex (hex8 n) = Some n.
Proof.
  intros Hn. unfold hex8.
  change (parseHex (hexDigits 8 n)) with (parseHexAcc 0 (hexDigits 8 n)).
  rewrite parseHexAcc_hexDigits. f_equal.
  change (16 ^ N.of_nat 8)%N with 4294967296%N.
  rewrite N.mod_small by exact Hn. lia.
Qed.

Lemma parseHexAcc_bound l : forall acc n,
  parseHexAcc acc l = Some n -> (n < (acc + 1) * 16 ^ N.of_nat (length l))%N.
Proof.
  induction l as [|c l IH]; intros acc n H; simpl in H.
  - inversion H; subst. simpl. lia.
  - destruct (hexDigit c) as [d|] eqn:Hd; [|discriminate].
    apply IH in H. apply hexDigit_lt in Hd.
    cbn [length]. rewrite Nat2N.inj_succ, N.pow_succ_r'.
    set (p := (16 ^ N.of_nat (length l))%N) in *.
    nia.
Qed.

Lemma parseHexAcc_nonhex l : forall acc c,
  In c l -> hexDigit c = None -> parseHexAcc acc l = None.
Proof.
  induction l as [|x l IH]; intros acc c Hin Hc; [destruct Hin|].
  simpl. destruct Hin as [->|Hin].
  - rewrite Hc. reflexivity.
  - destruct (hexDigit x); [eapply IH; eassumption|reflexivity].
Qed.

Lemma parseHex_nonhex l c : In c l -> hexDigit c = None -> parseHex l = None.
Proof.
  destruct l; [intros []|]. intros Hin Hc. unfold parseHex.
  eapply parseHexAcc_nonhex; eassumption.
Qed.

Lemma parseHex_take8_bound l n :
  parseHex (take 8 l) = Some n -> (n < 4294967296)%N.
Proof.
  intros H. unfold parseHex in H. destruct (take 8 l) eqn:E; [discriminate|].
  rewrite <- E in H. apply parseHexAcc_bound in H.
  assert (length (take 8 l) <= 8)%nat by (rewrite length_take; lia).
  eapply N.lt_le_trans; [exact H|].
  change 4294967296%N with ((0 + 1) * 16 ^ N.of_nat 8)%N.
  apply N.mul_le_mono_l, N.pow_le_mono_r; lia.
Qed.

Lemma ParseWALFileName_format tl log seg :
  (tl < 4294967296)%N -> (log < 4294967296)%N -> (seg < xLogSegmentsPerXLogId)%N ->
  ParseWALFileName (walFileFormat tl log seg) = Ok (tl, log, seg).
Proof.
  intros Htl Hlog Hseg. unfold ParseWALFileName, walFileFormat.
  rewrite chars_str.
  assert (L : forall n, length (hex8 n) = 8%nat) by (intros; apply length_hexDigits).
  rewrite bool_decide_eq_true_2 by (rewrite !length_app, !L; reflexivity).
  rewrite (take_app_length' (hex8 tl)) by (rewrite L; reflexivity).
  rewrite (drop_app_length' (hex8 tl)) by (rewrite L; reflexivity).
  rewrite (take_app_length' (hex8 log)) by (rewrite L; reflexivity).
  replace (drop 16 (hex8 tl ++ hex8 log ++ hex8 seg)) with (hex8 seg).
  2:{ rewrite app_assoc. rewrite drop_app_length'; [reflexivity|].
      rewrite length_app, !L. reflexivity. }
  unfold xLogSegmentsPerXLogId in *.
  rewrite !parseHex_hex8 by lia.
  destruct (N.leb_spec 256 seg); [lia|reflexivity].
Qed.

Lemma ParseWALFileName_bounds name tl log seg :
  ParseWALFileName name = Ok (tl, log, seg) ->
  (tl < 4294967296)%N /\ (log < 4294967296)%N /\ (seg < xLogSegmentsPerXLogId)%N.
Proof.
  unfold ParseWALFileName. case_bool_decide; [|discriminate].
  destruct (parseHex (take 8 (chars name))) as [a|] eqn:Ha; [|discriminate].
  destruct (parseHex (take 8 (drop 8 (chars name)))) as [b|] eqn:Hb; [|discriminate].
  destruct (parseHex (drop 16 (chars name))) as [c|] eqn:Hc; [|discriminate].
  destruct (N.leb_spec xLogSegmentsPerXLogId c); [discriminate|].
  intros [= -> -> ->].
  split; [eapply parseHex_take8_bound; eassumption|].
  split; [eapply parseHex_take8_bound; eassumption|assumption].
Qed.

Lemma ParseWALFileName_width name :
  length (chars name) <> 24%nat -> ParseWALFileName name = Err FormatError.
Proof. intros H. unfold ParseWALFileName. rewrite bool_decide_eq_false_2; auto. Qed.

Lemma ParseWALFileName_nonhex name c :
  In c (chars name) -> hexDigit c = None -> ParseWALFileName name = Err FormatError.
Proof.
  intros Hin Hc. unfold ParseWALFileName. case_bool_decide; [|reflexivity].
  set (l := chars name) in *.
  assert (Hsplit : l = take 8 l ++ take 8 (drop 8 l) ++ drop 16 l).
  { rewrite <- (take_drop 8 l) at 1. f_equal.
    rewrite <- (take_drop 8 (drop 8 l)) at 1. f_equal.
    rewrite drop_drop. reflexivity. }
  rewrite Hsplit in Hin. rewrite !in_app_iff in Hin.
  destruct Hin as [Hin|[Hin|Hin]].
  - rewrite (parseHex_nonhex _ _ Hin Hc). reflexivity.
  - rewrite (parseHex_nonhex _ _ Hin Hc). destruct (parseHex (take 8 l)); reflexivity.
  - rewrite (parseHex_nonhex _ _ Hin Hc).
    destruct (parseHex (take 8 l)); [|reflexivity].
    destruct (parseHex (take 8 (drop 8 l))); reflexivity.
Qed.

(** ** Segment names: the increment *)

(** C9.  [NextWALFileName] increments the segment counter of a well-formed
    name; at the segment counter's maximum (name ending in FF) it resets the
    segment field to zero and increments the log-file field exactly once,
    as in 0000000100000001000000FF -> 000000010000000200000000; it fails with
    [FormatError] on every name that is not 24 characters wide, on every name
    with a non-hexadecimal character, and when the log-file counter is already
    at its ceiling. *)
Theorem NextWALFileName_increment :
  (forall name tl log seg,
      ParseWALFileName name = Ok (tl, log, seg) ->
      ((seg + 1 < xLogSegmentsPerXLogId)%N ->
       NextWALFileName name = Ok (walFileFormat tl log (seg + 1)) /\
       ParseWALFileName (walFileFormat tl log (seg + 1)) = Ok (tl, log, (seg + 1)%N)) /\
      (seg = 255%N -> (log < maxLogId)%N ->
       NextWALFileName name = Ok (walFileFormat tl (log + 1) 0) /\
       ParseWALFileName (walFileFormat tl (log + 1) 0) = Ok (tl, (log + 1)%N, 0%N)) /\
      (seg = 255%N -> log = maxLogId -> NextWALFileName name = Err FormatError))
  /\ NextWALFileName "0000000100000001000000FF" = Ok "000000010000000200000000"%string
  /\ (forall name, length (chars name) <> 24%nat -> NextWALFileName name = Err FormatError)
  /\ (forall name c, In c (chars name) -> hexDigit c = None ->
      NextWALFileName name = Err FormatError).
Proof.
  split; [|split; [|split]].
  - intros name tl log seg Hp.
    destruct (ParseWALFileName_bounds _ _ _ _ Hp) as (Htl & Hlog & Hseg).
    unfold NextWALFileName. rewrite Hp.
    unfold xLogSegmentsPerXLogId, maxLogId in *.
    split; [|split].
    + intros Hlt. destruct (N.ltb_spec (seg + 1) 256); [|lia].
      split; [reflexivity|]. apply ParseWALFileName_format; unfold xLogSegmentsPerXLogId; lia.
    + intros -> Hl. cbn. destruct (N.ltb_spec log 4294967295); [|lia].
      split; [reflexivity|]. apply ParseWALFileName_format; unfold xLogSegmentsPerXLogId; lia.
    + intros -> ->. reflexivity.
  - vm_compute. reflexivity.
  - intros name Hlen. unfold NextWALFileName.
    rewrite ParseWALFileName_width by exact Hlen. reflexivity.
  - intros name c Hin Hc. unfold NextWALFileName.
    rewrite (ParseWALFileName_nonhex _ _ Hin Hc). reflexivity.
Qed.

Lemma NextWALFileName_increment_witness :
  NextWALFileName "000000010000000000000051" = Ok (walFileFormat 1 0 82)
  /\ NextWALFileName "0000000100000001000000FF" = Ok (walFileFormat 1 2 0)
  /\ NextWALFileName "00000001FFFFFFFF000000FF" = Err FormatError
  /\ NextWALFileName "asdfasdf" = Err FormatError
  /\ NextWALFileName "00000001000ZZ001000000FF" = Err FormatError.
Proof.
  destruct NextWALFileName_increment as (Hinc & _ & Hwidth & Hhex).
  split; [|split; [|split; [|split]]].
  - refine (proj1 (proj1 (Hinc "000000010000000000000051"%string 1%N 0%N 81%N _) _));
      vm_compute; reflexivity.
  - refine (proj1 (proj1 (proj2 (Hinc "0000000100000001000000FF"%string 1%N 1%N 255%N _)) _ _));
      vm_compute; reflexivity.
  - refine (proj2 (proj2 (Hinc "00000001FFFFFFFF000000FF"%string 1%N 4294967295%N 255%N _)) _ _);
      vm_compute; reflexivity.
  - apply Hwidth. vm_compute. discriminate.
  - apply (Hhex _ "Z"%char); [vm_compute; tauto | vm_compute; reflexivity].
Defined.

(** ** Configure: the server-side-encryption check *)

Lemma Getenv_setenv_ne key key' v env :
  key <> key' -> Getenv (setenv key v env) key' = Getenv env key'.
Proof.
  intros Hne. unfold Getenv, setenv. destruct v.
  - rewrite lookup_insert_ne by exact Hne. reflexivity.
  - rewrite lookup_delete_ne by exact Hne. reflexivity.
Qed.

Lemma LookupEnv_setenv_ne key key' v env :
  key <> key' -> LookupEnv (setenv key v env) key' = LookupEnv env key'.
Proof.
  intros Hne. unfold LookupEnv, setenv. destruct v.
  - rewrite lookup_insert_ne by exact Hne. reflexivity.
  - rewrite lookup_delete_ne by exact Hne. reflexivity.
Qed.

Lemma sse_mismatch_eqb env :
  sse_mismatch env <->
  Bool.eqb (bool_decide (Getenv env "WALG_S3_SSE" = "aws:kms"%string))
           (bool_decide (Getenv env "WALG_S3_SSE_KMS_ID" = ""%string)) = true.
Proof.
  unfold sse_mismatch.
  do 2 case_bool_decide; simpl; intuition congruence.
Qed.

Lemma Configure_sseKmsError_inv w :
  Configure w = Err sseKmsError -> sse_mismatch (cw_env w).
Proof.
  unfold Configure. intros H. apply sse_mismatch_eqb.
  repeat match type of H with
         | (if ?b then _ else _) = _ => destruct b eqn:?; try discriminate H
         | bind_result ?r _ = _ => destruct r eqn:?; cbn [bind_result] in H; try discriminate H
         end;
    repeat match goal with
           | E : wrap ?r _ = Err _ |- _ => destruct r; cbn [wrap] in E
           | E : (if ?b then _ else _) = Err _ |- _ => destruct b
           end; unfold sseKmsError in *; try congruence.
Qed.

(** Walks through the stages of [Configure] that precede the check, along
    a hypothesis [H] stating that a run succeeded. *)
Ltac configure_stages H :=
  repeat match type of H with
         | (if ?b then _ else _) = _ => destruct b eqn:?; try discriminate H
         | bind_result ?r _ = _ =>
             destruct r eqn:?; cbn [bind_result] in H |- *; try discriminate H
         end.

Lemma Configure_sse_reconfigure w r sse kms :
  Configure w = Ok r ->
  let env' := setenv "WALG_S3_SSE" sse (setenv "WALG_S3_SSE_KMS_ID" kms (cw_env w)) in
  (exists r', Configure (with_env env' w) = Ok r') \/
  Configure (with_env env' w) = Err sseKmsError.
Proof.
  intros H env'.
  unfold Configure in *. cbn [cw_env cw_url_Parse cw_credentials_Get cw_findS3BucketRegion
    cw_NewSession cw_NewTarUploader cw_getMaxUploadConcurrency with_env].
  assert (G : forall key, key <> "WALG_S3_SSE"%string -> key <> "WALG_S3_SSE_KMS_ID"%string ->
                          Getenv env' key = Getenv (cw_env w) key).
  { intros key H1 H2. unfold env'. rewrite !Getenv_setenv_ne by congruence. reflexivity. }
  rewrite !G by discriminate.
  configure_stages H.
  match goal with
  | |- context [if ?b then Err sseKmsError else _] => destruct b
  end; [right; reflexivity|left; eexists; reflexivity].
Qed.

(** C8.  [Configure] fails on the KMS check exactly when the mode aws:kms is
    configured without a key identifier or a key identifier is configured
    without the mode aws:kms: the check's error is returned only for such an
    environment, and an accepted configuration whose two variables are changed
    is rejected with that error when they disagree and accepted when both or
    neither are configured. *)
Theorem Configure_sse_kms_check :
  (forall w, Configure w = Err sseKmsError -> sse_mismatch (cw_env w))
  /\ (forall w r sse kms,
         Configure w = Ok r ->
         let env' := setenv "WALG_S3_SSE" sse (setenv "WALG_S3_SSE_KMS_ID" kms (cw_env w)) in
         (sse_mismatch env' -> Configure (with_env env' w) = Err sseKmsError)
         /\ (~ sse_mismatch env' -> exists r', Configure (with_env env' w) = Ok r')).
Proof.
  split; [exact Configure_sseKmsError_inv|].
  intros w r sse kms H.
  pose proof (Configure_sse_reconfigure w r sse kms H) as Hd. cbv zeta in Hd |- *.
  set (env' := setenv _ _ _) in *.
  destruct Hd as [[r' Hr']|He].
  - split; [|eauto]. intros Hm. exfalso.
    apply sse_mismatch_eqb in Hm.
    unfold Configure in Hr'. configure_stages Hr'.
    cbn [cw_env with_env] in *. congruence.
  - split; [intros _; exact He|].
    intros Hm. exfalso. apply Hm.
    apply (Configure_sseKmsError_inv (with_env env' w)). exact He.
Qed.

Lemma Configure_sse_kms_check_witness :
  Configure (with_env (setenv "WALG_S3_SSE" (Some "aws:kms"%string)
                         (setenv "WALG_S3_SSE_KMS_ID" None (cw_env sample_world)))
               sample_world) = Err sseKmsError
  /\ Configure (with_env (setenv "WALG_S3_SSE" None
                            (setenv "WALG_S3_SSE_KMS_ID" (Some "key-1"%string)
                               (cw_env sample_world)))
                  sample_world) = Err sseKmsError
  /\ exists r', Configure (with_env (setenv "WALG_S3_SSE" (Some "aws:kms"%string)
                            (setenv "WALG_S3_SSE_KMS_ID" (Some "key-1"%string)
                               (cw_env sample_world)))
                  sample_world) = Ok r'.
Proof.
  destruct Configure_sse_kms_check as [_ H].
  assert (Hok : exists r, Configure sample_world = Ok r) by (eexists; vm_compute; reflexivity).
  destruct Hok as [r Hr].
  split; [|split].
  - apply (proj1 (H sample_world r (Some "aws:kms"%string) None Hr)).
    left. split; vm_compute; reflexivity.
  - apply (proj1 (H sample_world r None (Some "key-1"%string) Hr)).
    right. split; vm_compute; discriminate.
  - apply (proj2 (H sample_world r (Some "aws:kms"%string) (Some "key-1"%string) Hr)).
    intros [[_ E]|[E _]]; vm_compute in E; [discriminate|apply E; reflexivity].
Defined.

(** ** StartUpload: what reaches the pipe *)

Lemma writer_finish_Write w : forall c pending,
  writer_finish (writer_Write w c) pending = writer_finish w (c :: pending).
Proof.
  induction w as [sent closed|st s under IH]; intros c pending.
  - simpl. destruct closed; simpl; [reflexivity|].
    rewrite <- app_assoc. reflexivity.
  - simpl. destruct (stage_write st s c) as [s' out] eqn:E. simpl.
    rewrite IH. reflexivity.
Qed.

Lemma write_all_finish source : forall w, write_all w source = writer_finish w source.
Proof.
  unfold write_all, writer_Close.
  induction source as [|c source IH]; intros w; simpl; [reflexivity|].
  rewrite IH. apply writer_finish_Write.
Qed.

Lemma wire_finish_pipe pending :
  wire (writer_finish (PipeWriter [] false) pending) = concat pending.
Proof. reflexivity. Qed.

Lemma pipe_closed_finish w : forall pending, pipe_closed (writer_finish w pending) = true.
Proof. induction w as [|st s under IH]; intros pending; simpl; [reflexivity|apply IH]. Qed.

(** C5.  With an armed [Crypter] the writer returned by [StartUpload] sends
    encrypt(compress(source)) into the pipe: the compressor writes into the
    encryptor, which writes into the pipe.  With a [Crypter] that is not armed
    the pipe receives compress(source), with no encryption stage. *)
Theorem StartUpload_wire lz4 s name crypter source :
  (forall enc, IsUsed crypter = true -> Encrypt crypter = Ok enc ->
     exists input w,
       StartUpload lz4 s name crypter = Returns (input, w)
       /\ wire (write_all w source) = concat (stage_run enc (stage_run lz4 source))
       /\ pipe_closed (write_all w source) = true)
  /\ (IsUsed crypter = false ->
      exists input w,
        StartUpload lz4 s name crypter = Returns (input, w)
        /\ wire (write_all w source) = concat (stage_run lz4 source)
        /\ pipe_closed (write_all w source) = true).
Proof.
  split.
  - intros enc Hused Henc. unfold StartUpload. rewrite Hused, Henc.
    do 2 eexists. split; [reflexivity|].
    rewrite write_all_finish. split; [reflexivity|apply pipe_closed_finish].
  - intros Hused. unfold StartUpload. rewrite Hused.
    do 2 eexists. split; [reflexivity|].
    rewrite write_all_finish. split; [reflexivity|apply pipe_closed_finish].
Qed.

Lemma StartUpload_wire_witness :
  (exists input w,
      StartUpload buffering_stage sample_tarball "part_1.tar.lz4"
        {| IsUsed := true; Encrypt := Ok framing_stage |} = Returns (input, w)
      /\ wire (write_all w [[Byte.x61]; [Byte.x62; Byte.x63]])
         = [Byte.x01; Byte.x01; Byte.x01; Byte.x61; Byte.x62; Byte.x63; Byte.xff]
      /\ pipe_closed (write_all w [[Byte.x61]; [Byte.x62; Byte.x63]]) = true)
  /\ (exists input w,
      StartUpload buffering_stage sample_tarball "part_1.tar.lz4"
        {| IsUsed := false; Encrypt := Err (External "no key") |} = Returns (input, w)
      /\ wire (write_all w [[Byte.x61]; [Byte.x62; Byte.x63]])
         = [Byte.x61; Byte.x62; Byte.x63]
      /\ pipe_closed (write_all w [[Byte.x61]; [Byte.x62; Byte.x63]]) = true).
Proof.
  split.
  - exact (proj1 (StartUpload_wire buffering_stage sample_tarball "part_1.tar.lz4"
                    {| IsUsed := true; Encrypt := Ok framing_stage |}
                    [[Byte.x61]; [Byte.x62; Byte.x63]])
             framing_stage eq_refl eq_refl).
  - exact (proj2 (StartUpload_wire buffering_stage sample_tarball "part_1.tar.lz4"
                    {| IsUsed := false; Encrypt := Err (External "no key") |}
                    [[Byte.x61]; [Byte.x62; Byte.x63]])
             eq_refl).
Defined.

(** ** UploadWal: verification *)

(** C2.  An upload with [verify = true] whose file opens compares the
    locally computed checksum with the ETag storage reports: whenever the two
    differ the call ends in [log.Fatalf] and never returns; it returns only
    when storage reported an ETag equal to the local checksum; and in either
    case the object was uploaded once and its ETag fetched once, so a mismatch
    is not retried. *)
Theorem UploadWal_verify w tu path pre f :
  uw_Open w path = Ok f ->
  let run := UploadWal w tu path pre true in
  (forall eTag, uw_GetETag w (walKey w tu path) = Ok (Some eTag) ->
                localSum w tu path f <> Trim1 eTag quote ->
                snd run = Fatal "WAL verification failed")
  /\ (forall r, snd run = Returns r ->
                exists eTag, uw_GetETag w (walKey w tu path) = Ok (Some eTag)
                             /\ localSum w tu path f = Trim1 eTag quote)
  /\ length (filter is_upload (fst run)) = 1%nat
  /\ length (filter is_getETag (fst run)) = 1%nat.
Proof.
  intros Hopen run. subst run. unfold UploadWal, localSum. rewrite Hopen.
  unfold TarUploader_upload.
  destruct (uw_Upload w (createUploadInput tu (walKey w tu path)) (uw_Compress w f))
    as [n oe] eqn:Hup.
  set (sum := uw_md5 w (take n (uw_Compress w f))).
  destruct oe as [e|];
    destruct (uw_GetETag w (walKey w tu path)) as [[eTag|]|e'] eqn:Htag;
    try case_bool_decide; cbn [fst snd];
    repeat split;
    try (intros eTag' Heq Hne; simplify_eq; done);
    try (intros r Hr; discriminate Hr);
    try (intros r Hr; simplify_eq; eexists; split; [reflexivity|];
         destruct (decide (sum = Trim1 eTag quote)); tauto).
Qed.

Lemma UploadWal_verify_witness :
  snd (UploadWal (sample_storage "deadbeef") sample_tarball.(tb_tu)
         "/pg/pg_xlog/000000010000000000000051" {| Bucket := "bucket"; Server := "server" |} true)
  = Fatal "WAL verification failed".
Proof.
  refine (proj1 (UploadWal_verify (sample_storage "deadbeef") sample_tarball.(tb_tu)
                   "/pg/pg_xlog/000000010000000000000051"
                   {| Bucket := "bucket"; Server := "server" |}
                   [Byte.x61; Byte.x62] eq_refl) "deadbeef"%string eq_refl _).
  vm_compute. discriminate.
Defined.

Example UploadWal_verify_match :
  snd (UploadWal (sample_storage (String quote "900150983cd24fb0d6963f7d28e17f72" +:+ String quote ""))
         sample_tarball.(tb_tu) "/pg/pg_xlog/000000010000000000000051"
         {| Bucket := "bucket"; Server := "server" |} true)
  = Returns ("server/wal_005//pg/pg_xlog/000000010000000000000051.lz4"%string, None).
Proof. vm_compute. reflexivity. Qed.

(** ** The background uploader: bookkeeping *)

Lemma count_pc_nonneg P ws : 0 <= count_pc P ws.
Proof. induction ws as [|w ws IH]; simpl; [lia|]. destruct (P (w_pc w)); lia. Qed.

Lemma count_pc_app P ws1 ws2 : count_pc P (ws1 ++ ws2) = count_pc P ws1 + count_pc P ws2.
Proof. induction ws1 as [|w ws1 IH]; simpl; [lia|]. rewrite IH. lia. Qed.

Lemma count_pc_set P ws : forall i w pc,
  ws !! i = Some w ->
  count_pc P (alter (fun w => {| w_file := w_file w; w_pc := pc |}) i ws)
  = count_pc P ws - (if P (w_pc w) then 1 else 0) + (if P pc then 1 else 0).
Proof.
  induction ws as [|x ws IH]; intros [|i] w pc H; simpl in *; try discriminate.
  - inversion H; subst. lia.
  - specialize (IH i w pc H). unfold alter in IH. rewrite IH. lia.
Qed.

Lemma count_pc_holds_alive ws : count_pc holds_slot ws <= count_pc alive ws.
Proof.
  induction ws as [|w ws IH]; simpl; [lia|].
  destruct (w_pc w); simpl; lia.
Qed.

Lemma count_pc_owes_holds ws : count_pc owes_total ws <= count_pc holds_slot ws.
Proof.
  induction ws as [|w ws IH]; simpl; [lia|].
  destruct (w_pc w); simpl; lia.
Qed.

Lemma count_pc_zero_alive ws w i :
  count_pc alive ws = 0 -> ws !! i = Some w -> w_pc w = WExited.
Proof.
  revert i. induction ws as [|x ws IH]; intros [|i] H Hi; simpl in *; try discriminate.
  - inversion Hi; subst. pose proof (count_pc_nonneg alive ws).
    destruct (w_pc w); simpl in *; try lia. reflexivity.
  - pose proof (count_pc_nonneg alive ws).
    apply (IH i); [|exact Hi]. destruct (alive (w_pc x)); lia.
Qed.

Lemma map_w_file_set ws i pc :
  map w_file (alter (fun w => {| w_file := w_file w; w_pc := pc |}) i ws) = map w_file ws.
Proof.
  revert i. induction ws as [|x ws IH]; intros [|i]; simpl; try reflexivity.
  specialize (IH i). unfold alter in IH. rewrite IH. reflexivity.
Qed.

Lemma worker_at_Some i pc s w :
  worker_at i pc s = Some w -> st_workers s !! i = Some w /\ w_pc w = pc.
Proof.
  unfold worker_at. destruct (st_workers s !! i) as [w'|]; [|discriminate].
  case_bool_decide; [|discriminate]. intros [= ->]. auto.
Qed.

Lemma wrap32_id z : int32 z -> wrap32 z = z.
Proof.
  unfold int32, wrap32. intros H.
  rewrite Z.mod_small by lia. lia.
Qed.

Lemma dispatched_set_pc i pc s : dispatched (set_pc i pc s) = dispatched s.
Proof. unfold dispatched, set_pc. simpl. apply map_w_file_set. Qed.

(** ** The background uploader: invariants of the reachable states *)

Lemma scan_file_Next u name u' sp :
  scan_file u name = Next u' sp ->
  parallelWorkers u < maxParallelWorkers u /\
  maxParallelWorkers u' = maxParallelWorkers u /\
  totalUploaded u' = totalUploaded u /\
  dir u' = dir u /\
  (forall n, is_Some (started u !! n) -> is_Some (started u' !! n)) /\
  match sp with
  | Some f =>
      f = name /\ started u !! name = None /\ HasSuffix name readySuffix = true /\
      0 < maxParallelWorkers u /\ totalUploaded u < 1024 /\
      started u' = <[name := name]> (started u) /\
      running u' = running u + 1 /\
      parallelWorkers u' = AddInt32 (parallelWorkers u) 1
  | None =>
      parallelWorkers u' = parallelWorkers u /\ running u' = running u
  end.
Proof.
  unfold scan_file, haveNoSlots, shouldKeepScanning.
  destruct (maxParallelWorkers u <=? parallelWorkers u) eqn:Hs; [discriminate|].
  apply Z.leb_gt in Hs.
  destruct (negb (HasSuffix name readySuffix)) eqn:Hsuf.
  { intros [= <- <-]. repeat split; auto. }
  apply negb_false_iff in Hsuf.
  case_bool_decide as Hseen.
  { intros [= <- <-]. repeat split; auto. }
  assert (started u !! name = None) as Hnone.
  { destruct (started u !! name) eqn:E; [|reflexivity]. exfalso. apply Hseen. eauto. }
  cbn.
  destruct ((0 <? maxParallelWorkers u) && (totalUploaded u <? 1024)) eqn:Hk.
  - intros [= <- <-]. cbn. apply andb_prop in Hk as [Hk1 Hk2].
    apply Z.ltb_lt in Hk1, Hk2.
    repeat split; auto.
    intros n Hn. destruct (decide (name = n)) as [->|Hne].
    + rewrite lookup_insert_eq. eauto.
    + rewrite lookup_insert_ne by exact Hne. exact Hn.
  - intros [= <- <-]. cbn. repeat split; auto.
    intros n Hn. destruct (decide (name = n)) as [->|Hne].
    + rewrite lookup_insert_eq. eauto.
    + rewrite lookup_insert_ne by exact Hne. exact Hn.
Qed.

Lemma scanning_ext who s s' :
  st_init s' = st_init s ->
  (forall i w, st_workers s !! i = Some w -> w_pc w = WScan ->
     exists w', st_workers s' !! i = Some w' /\ w_pc w' = WScan) ->
  scanning who s = true -> scanning who s' = true.
Proof.
  intros Hi Hw. destruct who as [|i]; cbn.
  - rewrite Hi. auto.
  - rewrite !bool_decide_eq_true. intros [w Hs].
    apply worker_at_Some in Hs as [Hl Hpc].
    destruct (Hw i w Hl Hpc) as (w' & Hl' & Hpc').
    exists w'. unfold worker_at. rewrite Hl'. rewrite bool_decide_eq_true_2; auto.
Qed.

Lemma scanning_set_pc who i pc s w :
  st_workers s !! i = Some w -> w_pc w <> WScan ->
  scanning who s = true -> scanning who (set_pc i pc s) = true.
Proof.
  intros Hl Hpc. apply scanning_ext; [reflexivity|].
  intros j w' Hj Hw'. cbn.
  destruct (decide (i = j)) as [->|Hne].
  - congruence.
  - exists w'. rewrite list_lookup_alter_ne by exact Hne. auto.
Qed.

Lemma scanning_spawn who s u w :
  scanning who s = true ->
  scanning who (set_workers (st_workers s ++ [w]) (set_u u s)) = true.
Proof.
  apply scanning_ext; [reflexivity|].
  intros j w' Hj Hw'. cbn. exists w'. split; [|exact Hw'].
  apply lookup_app_l_Some. exact Hj.
Qed.

Ltac exec_facts :=
  repeat match goal with
         | E : Some _ = Some _ |- _ => injection E as <-
         | E : bool_decide _ = true |- _ => apply bool_decide_eq_true in E
         | E : bool_decide _ = false |- _ => apply bool_decide_eq_false in E
         | E : (_ && _)%bool = true |- _ => apply andb_prop in E as [? ?]
         | E : _ /\ _ |- _ => destruct E
         | E : is_Some _ |- _ => destruct E
         | E : worker_at _ _ _ = Some _ |- _ => apply worker_at_Some in E as [? ?]
         end.

Ltac exec_cases H :=
  repeat match type of H with
         | match ?l with _ => _ end = Some _ => destruct l eqn:?; try discriminate H
         | (if ?b then _ else _) = Some _ => destruct b eqn:?; try discriminate H
         end;
  exec_facts.

Ltac count_set :=
  repeat match goal with
         | H : st_workers ?s !! ?i = Some ?w, Hpc : w_pc ?w = _
           |- context [count_pc ?P (alter _ ?i (st_workers ?s))] =>
             rewrite (count_pc_set P _ i w _ H), Hpc
         end;
  rewrite ?count_pc_app; cbn [count_pc holds_slot alive owes_total w_pc].

Lemma Inv_scan_return cfg who s :
  Inv cfg s -> (exists pc, st_mutex s = LockedByScan who pc) -> Inv cfg (scan_return who s).
Proof.
  intros [Hmain Hcfg Hmax Hpw Hrun Hle Hnd Hst Hsl Hsc Hsd] [pc Hm].
  pose proof (Hsc _ _ Hm) as Hs.
  unfold stop_stored in Hmax. rewrite Hm in Hmax.
  destruct who as [|i]; cbn in Hs; exec_facts.
  - constructor; unfold stop_stored; cbn; auto; try discriminate.
  - constructor; unfold stop_stored; cbn; rewrite ?map_w_file_set; auto; try discriminate.
    + count_set. lia.
    + count_set. lia.
Qed.

Lemma Inv_set_log cfg v s : Inv cfg s -> Inv cfg (set_log v s).
Proof. intros []. constructor; auto. Qed.

Lemma Inv_worker_step cfg s s' i w pc' :
  Inv cfg s ->
  st_workers s !! i = Some w -> w_pc w <> WScan ->
  st_mutex s' = st_mutex s -> st_main s' = st_main s -> st_init s' = st_init s ->
  st_workers s' = alter (fun w => {| w_file := w_file w; w_pc := pc' |}) i (st_workers s) ->
  maxParallelWorkers (st_u s') = maxParallelWorkers (st_u s) ->
  started (st_u s') = started (st_u s) ->
  parallelWorkers (st_u s')
  = parallelWorkers (st_u s) - (if holds_slot (w_pc w) then 1 else 0)
    + (if holds_slot pc' then 1 else 0) ->
  running (st_u s')
  = running (st_u s) - (if alive (w_pc w) then 1 else 0) + (if alive pc' then 1 else 0) ->
  (holds_slot pc' = true -> holds_slot (w_pc w) = true) ->
  (alive pc' = true -> alive (w_pc w) = true) ->
  Inv cfg s'.
Proof.
  intros [Hmain Hcfg Hmax Hpw Hrun Hle Hnd Hst Hsl Hsc Hsd]
         Hl Hpc Em Ea Ei Ew Emax Est Ep Er Hh Hal.
  pose proof (count_pc_set holds_slot _ i w pc' Hl) as Ch.
  pose proof (count_pc_set alive _ i w pc' Hl) as Ca.
  constructor; unfold stop_stored, dispatched in *;
    rewrite ?Em, ?Ea, ?Ei, ?Ew, ?Emax, ?Est, ?map_w_file_set; auto.
  - rewrite Ep, Ch. lia.
  - rewrite Er, Ca. lia.
  - rewrite Ep. destruct (holds_slot pc'); [rewrite Hh by reflexivity|]; 
      destruct (holds_slot (w_pc w)); lia.
  - intros who pc Hm. specialize (Hsc _ _ Hm).
    revert Hsc. apply scanning_ext; [exact Ei|].
    intros j w' Hj Hw'. rewrite Ew.
    destruct (decide (i = j)) as [->|Hne]; [congruence|].
    exists w'. rewrite list_lookup_alter_ne by exact Hne. auto.
  - intros Hp. specialize (Hsd Hp).
    pose proof (count_pc_nonneg alive (st_workers s')) as Hnn.
    rewrite Ew, Ca, <- Hrun in Hnn.
    rewrite Er. destruct (alive pc'); [rewrite Hal by reflexivity|];
      destruct (alive (w_pc w)); lia.
Qed.

Lemma Inv_step cfg l s s' :
  Inv cfg s -> exec l s = Some s' -> Inv cfg s'.
Proof.
  intros HI H.
  destruct l; cbn [exec] in H.
  - (* Start *) destruct HI. exec_cases H; congruence.
  - (* Stop *)
    destruct HI as [Hmain Hcfg Hmax Hpw Hrun Hle Hnd Hst Hsl Hsc Hsd].
    exec_cases H. unfold stop_stored in *.
    constructor; unfold stop_stored; cbn; auto; try congruence.
    + rewrite Hmax. repeat case_bool_decide; cbn; congruence.
    + intros pc Hp. specialize (Hsl _ Hp). congruence.
  - (* the loop of Stop *)
    exec_cases H; [exact HI|].
    destruct HI as [Hmain Hcfg Hmax Hpw Hrun Hle Hnd Hst Hsl Hsc Hsd].
    unfold stop_stored in *.
    constructor; unfold stop_stored; cbn; auto; try congruence.
    rewrite Hmax. repeat case_bool_decide; cbn; try congruence.
  - (* Stop locks *)
    destruct HI as [Hmain Hcfg Hmax Hpw Hrun Hle Hnd Hst Hsl Hsc Hsd].
    exec_cases H. unfold stop_stored in *.
    constructor; unfold stop_stored; cbn; auto; try congruence; try discriminate.
    rewrite Hmax. repeat case_bool_decide; cbn; congruence.
  - (* Stop stores 0 *)
    destruct HI as [Hmain Hcfg Hmax Hpw Hrun Hle Hnd Hst Hsl Hsc Hsd].
    exec_cases H. unfold stop_stored in *.
    constructor; unfold stop_stored; cbn; auto; try congruence; try discriminate.
    all: try (intros pc _; eapply Hsl; eassumption).
    all: try (intros Hp; specialize (Hsl _ ltac:(eassumption)); congruence).
  - (* Wait returns *)
    destruct HI as [Hmain Hcfg Hmax Hpw Hrun Hle Hnd Hst Hsl Hsc Hsd].
    exec_cases H. unfold stop_stored in *.
    constructor; unfold stop_stored; cbn; auto; try congruence; try discriminate.
    rewrite Hmax. repeat case_bool_decide; cbn; congruence.
  - (* scanOnce locks *)
    destruct HI as [Hmain Hcfg Hmax Hpw Hrun Hle Hnd Hst Hsl Hsc Hsd].
    exec_cases H. unfold stop_stored in *.
    constructor; unfold stop_stored; cbn; auto; try congruence; try discriminate.
    + rewrite Hmax. repeat case_bool_decide; cbn; congruence.
    + intros w pc [= <- <-]. destruct who; assumption.
  - (* ReadDir *)
    exec_cases H.
    + destruct HI as [Hmain Hcfg Hmax Hpw Hrun Hle Hnd Hst Hsl Hsc Hsd].
      unfold stop_stored in *.
      constructor; unfold stop_stored; cbn; auto; try congruence; try discriminate.
      * rewrite Hmax. repeat case_bool_decide; cbn; congruence.
      * intros w pc [= <- <-]. pose proof (Hsc _ _ ltac:(eassumption)). destruct who; assumption.
    + apply Inv_scan_return; [apply Inv_set_log; exact HI|]. cbn. eauto.
  - (* one pass of the loop *)
    exec_cases H; subst; try (apply Inv_scan_return; [exact HI|eauto]).
    destruct HI as [Hmain Hcfg Hmax Hpw Hrun Hle Hnd Hst Hsl Hsc Hsd].
    match goal with E : scan_file _ _ = Next _ _ |- _ =>
      apply scan_file_Next in E as (Hlt & Emax & Etot & Edir & Hmono & Hsp) end.
    match goal with E : st_mutex s = _ |- _ => pose proof (Hsc _ _ E) as Hs; rename E into Hm end.
    unfold stop_stored in Hmax. rewrite Hm in Hmax.
    assert (maxParallelWorkers (st_u s) <= cfg) as Hmc.
    { rewrite Hmax. destruct (_ || _); lia. }
    destruct spawned as [f|].
    + destruct Hsp as (-> & Hnone & Hsuf & Hpos & Hcap & Est & Er & Ep).
      pose proof (count_pc_nonneg holds_slot (st_workers s)) as Hnn.
      assert (AddInt32 (parallelWorkers (st_u s)) 1 = parallelWorkers (st_u s) + 1) as Ea.
      { apply wrap32_id. unfold int32. lia. }
      constructor; unfold stop_stored, dispatched; cbn; auto; try discriminate.
      * rewrite Emax, Hmax. reflexivity.
      * rewrite Ep, Ea. count_set. lia.
      * rewrite Er. count_set. lia.
      * rewrite Ep, Ea. lia.
      * rewrite map_app. cbn. apply NoDup_app. split; [exact Hnd|]. split.
        -- intros x Hx Hx'. apply list_elem_of_In in Hx. apply Hst in Hx.
           apply list_elem_of_singleton in Hx'. subst x. rewrite Hnone in Hx.
           destruct Hx; discriminate.
        -- apply NoDup_singleton.
      * intros n Hn. rewrite map_app in Hn. apply in_app_or in Hn as [Hn|Hn].
        -- apply Hmono, Hst, Hn.
        -- cbn in Hn. destruct Hn as [<-|[]]. rewrite Est, lookup_insert_eq. eauto.
      * intros w pc [= <- <-]. apply scanning_spawn. exact Hs.
      * intros Hp. rewrite Hmax in Hlt.
        rewrite (bool_decide_eq_true_2 (st_main s = MStopped)) in Hlt by exact Hp.
        rewrite orb_true_r in Hlt. lia.
    + destruct Hsp as (Ep & Er).
      constructor; unfold stop_stored, dispatched; cbn; auto; try discriminate.
      all: rewrite ?Emax, ?Ep, ?Er; auto.
      * intros w pc [= <- <-]. destruct who; exact Hs.
  - (* UploadWALFile returns *)
    exec_cases H.
    eapply Inv_worker_step with (i := i) (pc' := WRename); eauto; cbn; try congruence;
      match goal with E : w_pc _ = _ |- _ => rewrite E end; cbn; auto; lia.
  - (* Rename *)
    exec_cases H.
    eapply Inv_worker_step with (i := i) (pc' := WAddTotal); eauto; try congruence;
      destruct ok; cbn;
      match goal with E : w_pc _ = _ |- _ => rewrite ?E end; cbn; auto; lia.
  - (* totalUploaded++ *)
    exec_cases H.
    eapply Inv_worker_step with (i := i) (pc' := WScan); eauto; cbn; try congruence;
      match goal with E : w_pc _ = _ |- _ => rewrite E end; cbn; auto; lia.
  - (* parallelWorkers-- *)
    exec_cases H.
    pose proof (count_pc_nonneg holds_slot (st_workers s)) as Hnn.
    assert (1 <= parallelWorkers (st_u s) <= cfg) as Hb.
    { destruct HI as [Hmain Hcfg Hmax Hpw Hrun Hle Hnd Hst Hsl Hsc Hsd].
      split; [|exact Hle]. rewrite Hpw.
      match goal with Hl : st_workers s !! i = Some ?w, E : w_pc ?w = _ |- _ =>
        pose proof (count_pc_set holds_slot _ i w WExited Hl) as C; rewrite E in C;
        pose proof (count_pc_nonneg holds_slot
                      (alter (fun w => {| w_file := w_file w; w_pc := WExited |}) i
                         (st_workers s))) end.
      cbn in C. lia. }
    assert (AddInt32 (parallelWorkers (st_u s)) (-1) = parallelWorkers (st_u s) - 1) as Ea.
    { apply wrap32_id. destruct HI. unfold int32. lia. }
    eapply Inv_worker_step with (i := i) (pc' := WDone); eauto; cbn; try congruence;
      match goal with E : w_pc _ = _ |- _ => rewrite E end; cbn; auto; lia.
  - (* Done *)
    exec_cases H.
    eapply Inv_worker_step with (i := i) (pc' := WExited); eauto; cbn; try congruence;
      match goal with E : w_pc _ = _ |- _ => rewrite E end; cbn; auto; lia.
Qed.

Lemma Inv_run cfg ls : forall s s', Inv cfg s -> run ls s = Some s' -> Inv cfg s'.
Proof.
  induction ls as [|l ls IH]; intros s s' HI H; cbn in H.
  - injection H as <-. exact HI.
  - destruct (exec l s) as [s1|] eqn:E; [|discriminate].
    eapply IH; [|exact H]. eapply Inv_step; eassumption.
Qed.

Lemma Inv_Start fs path m v s :
  exec (LStart path m v) (initial fs) = Some s -> Inv (configured m) s.
Proof.
  unfold exec, configured. case_bool_decide as Hg; [|discriminate].
  destruct Hg as [_ Hm]. unfold int32 in Hm.
  destruct (m <? 1) eqn:E; intros [= <-].
  - constructor; cbn; auto; try discriminate; try lia;
      try apply NoDup_nil_2; try (intros n []).
  - apply Z.ltb_ge in E.
    constructor; cbn; auto; try discriminate; try lia;
      try apply NoDup_nil_2; try (intros n []).
Qed.

Lemma exec_initial fs l s :
  exec l (initial fs) = Some s -> exists path m v, l = LStart path m v.
Proof.
  destruct l; cbn; try discriminate; eauto.
  destruct who; cbn; discriminate.
Qed.

Lemma run_Start_Inv fs path m v ls s :
  run (LStart path m v :: ls) (initial fs) = Some s -> Inv (configured m) s.
Proof.
  cbn [run]. destruct (exec _ _) as [s1|] eqn:E; [|discriminate].
  apply Inv_run. eapply Inv_Start. exact E.
Qed.

Lemma reachable_cases s :
  reachable s ->
  (exists fs, s = initial fs) \/
  (exists fs path m v ls, run (LStart path m v :: ls) (initial fs) = Some s).
Proof.
  intros (fs & ls & H). destruct ls as [|l ls].
  - left. exists fs. cbn in H. congruence.
  - right. cbn in H. destruct (exec l (initial fs)) as [s1|] eqn:E; [|discriminate].
    destruct (exec_initial _ _ _ E) as (path & m & v & ->).
    exists fs, path, m, v, ls. cbn [run]. rewrite E. exact H.
Qed.

Lemma reachable_Inv s :
  reachable s -> st_main s <> MNew -> exists cfg, Inv cfg s.
Proof.
  intros Hr Hm. destruct (reachable_cases s Hr) as [[fs ->]|(fs & path & m & v & ls & H)].
  - exfalso. apply Hm. reflexivity.
  - eexists. eapply run_Start_Inv. exact H.
Qed.

Lemma run_app ls1 : forall ls2 s,
  run (ls1 ++ ls2) s = match run ls1 s with Some s1 => run ls2 s1 | None => None end.
Proof.
  induction ls1 as [|l ls1 IH]; intros ls2 s; cbn; [reflexivity|].
  destruct (exec l s); [apply IH|reflexivity].
Qed.

Lemma reachable_run s ls s' : reachable s -> run ls s = Some s' -> reachable s'.
Proof.
  intros (fs & ls0 & H0) H. exists fs, (ls0 ++ ls). rewrite run_app, H0. exact H.
Qed.

Lemma st_u_scan_return who s : st_u (scan_return who s) = st_u s.
Proof. destruct who; reflexivity. Qed.

Lemma dispatched_scan_return who s : dispatched (scan_return who s) = dispatched s.
Proof. destruct who; [reflexivity|]. unfold scan_return. rewrite dispatched_set_pc. reflexivity. Qed.


Lemma st_log_scan_return who s : st_log (scan_return who s) = st_log s.
Proof. destruct who; reflexivity. Qed.

Lemma st_main_scan_return who s : st_main (scan_return who s) = st_main s.
Proof. destruct who; reflexivity. Qed.

(** What one step does to the seen set and to the list of dispatched
    files: the seen set only grows, and a file is dispatched only by a pass
    of the loop of [scanOnce], run by the holder of the mutex, for a name
    that was not in the seen set and is put there by the same pass. *)
Lemma exec_dispatch l s s' :
  st_main s <> MNew -> exec l s = Some s' ->
  st_main s' <> MNew /\
  dir (st_u s') = dir (st_u s) /\
  (forall n, is_Some (started (st_u s) !! n) -> is_Some (started (st_u s') !! n)) /\
  (dispatched s' = dispatched s \/
   exists who name rest,
     l = LScanFile who /\
     st_mutex s = LockedByScan who (ScanLoop (name :: rest)) /\
     started (st_u s) !! name = None /\
     started (st_u s') = <[name := name]> (started (st_u s)) /\
     HasSuffix name readySuffix = true /\
     parallelWorkers (st_u s) < maxParallelWorkers (st_u s) /\
     totalUploaded (st_u s) < 1024 /\
     dispatched s' = dispatched s ++ [name]).
Proof.
  intros Hmain H.
  destruct l; cbn [exec] in H; exec_cases H; subst;
    rewrite ?st_main_scan_return, ?st_u_scan_return, ?dispatched_scan_return,
      ?dispatched_set_pc;
    try (cbn; repeat split; auto; congruence).
  - (* one pass of the loop *)
    match goal with E : scan_file _ _ = Next _ _ |- _ =>
      apply scan_file_Next in E as (Hlt & Emax & Etot & Edir & Hmono & Hsp) end.
    destruct spawned as [f|].
    + destruct Hsp as (-> & Hnone & Hsuf & Hpos & Hcap & Est & Er & Ep).
      cbn. repeat split; auto. right. eexists _, _, _.
      repeat split; eauto.
      unfold dispatched. cbn. rewrite map_app. reflexivity.
    + cbn. repeat split; auto.
  - destruct ok; cbn; rewrite ?dispatched_set_pc; repeat split; auto.
Qed.

(** ** The background uploader: dispatch *)

Lemma run_dispatch ls : forall s s',
  st_main s <> MNew -> run ls s = Some s' ->
  st_main s' <> MNew /\
  dir (st_u s') = dir (st_u s) /\
  (forall n, is_Some (started (st_u s) !! n) -> is_Some (started (st_u s') !! n)) /\
  exists more, dispatched s' = dispatched s ++ more /\
               forall n, In n more -> started (st_u s) !! n = None.
Proof.
  induction ls as [|l ls IH]; intros s s' Hm H; cbn in H.
  - injection H as <-. repeat split; auto. exists []. rewrite app_nil_r. split; [reflexivity|].
    intros n [].
  - destruct (exec l s) as [s1|] eqn:E; [|discriminate].
    destruct (exec_dispatch _ _ _ Hm E) as (Hm1 & Hd1 & Hmono1 & Hdisp).
    destruct (IH _ _ Hm1 H) as (Hm' & Hd' & Hmono' & more & Hmore & Hnew).
    repeat split; auto; [congruence|].
    assert (forall n, In n more -> started (st_u s) !! n = None) as Hnew'.
    { intros n Hn. specialize (Hnew n Hn).
      destruct (started (st_u s) !! n) eqn:En; [|reflexivity].
      destruct (Hmono1 n) as [x Hx]; [eauto|]. congruence. }
    destruct Hdisp as [Hsame|(who & name & rest & _ & _ & Hnone & _ & _ & _ & _ & Happ)].
    + exists more. split; [congruence|exact Hnew'].
    + exists (name :: more). split.
      * rewrite Hmore, Happ, <- app_assoc. reflexivity.
      * intros n [<-|Hn]; [exact Hnone|apply Hnew', Hn].
Qed.

Lemma scan_file_started u name u' sp :
  scan_file u name = Next u' sp ->
  started u' = started u \/
  (started u !! name = None /\ started u' = <[name := name]> (started u)).
Proof.
  unfold scan_file.
  destruct (haveNoSlots u); [discriminate|].
  destruct (negb (HasSuffix name readySuffix)); [intros [= <- <-]; auto|].
  case_bool_decide as Hseen; [intros [= <- <-]; auto|].
  assert (started u !! name = None) as Hnone.
  { destruct (started u !! name) eqn:E; [|reflexivity]. exfalso. apply Hseen. eauto. }
  cbn. destruct (shouldKeepScanning _); intros [= <- <-]; cbn; auto.
Qed.

(** The seen set is written only by a pass of the loop of [scanOnce], whose
    runner holds the mutex; the same step has found the name missing. *)
Lemma exec_started l s s' :
  st_main s <> MNew -> exec l s = Some s' ->
  started (st_u s') = started (st_u s) \/
  exists who name rest,
    l = LScanFile who /\
    st_mutex s = LockedByScan who (ScanLoop (name :: rest)) /\
    started (st_u s) !! name = None /\
    started (st_u s') = <[name := name]> (started (st_u s)).
Proof.
  intros Hmain H.
  destruct l; cbn [exec] in H; exec_cases H; subst;
    rewrite ?st_u_scan_return; try (left; reflexivity); try congruence.
  - match goal with E : scan_file _ _ = Next _ _ |- _ =>
      apply scan_file_started in E as [Hs|[Hs1 Hs2]] end.
    + left. destruct spawned; exact Hs.
    + right. eexists _, _, _. repeat split; eauto. destruct spawned; exact Hs2.
  - left. destruct ok; reflexivity.
Qed.

Lemma reachable_started_main s name :
  reachable s -> is_Some (started (st_u s) !! name) -> st_main s <> MNew.
Proof.
  intros Hr [x Hx].
  destruct (reachable_cases s Hr) as [[fs ->]|(fs & path & m & v & ls & H)].
  - cbn in Hx. rewrite lookup_empty in Hx. discriminate.
  - apply run_Start_Inv in H. apply (I_main _ _ H).
Qed.

(** C1.  Once a marker name is in the seen set of a reachable state, every
    run from there keeps it in the set and dispatches no worker for it: the
    files dispatched later all differ from it, and no file is ever
    dispatched twice.  The set is written only by a pass of the loop of
    [scanOnce], taken by the goroutine that holds the mutex, and that pass
    both finds the name missing and inserts it. *)
Theorem BgUploader_dispatch_once s name ls s' :
  reachable s ->
  is_Some (started (st_u s) !! name) ->
  run ls s = Some s' ->
  is_Some (started (st_u s') !! name)
  /\ (exists more, dispatched s' = dispatched s ++ more /\ ~ In name more)
  /\ NoDup (dispatched s')
  /\ (forall l s1,
        exec l s' = Some s1 -> started (st_u s1) <> started (st_u s') ->
        exists who n rest,
          l = LScanFile who /\
          st_mutex s' = LockedByScan who (ScanLoop (n :: rest)) /\
          started (st_u s') !! n = None /\
          started (st_u s1) = <[n := n]> (started (st_u s'))).
Proof.
  intros Hr Hseen Hrun.
  pose proof (reachable_started_main _ _ Hr Hseen) as Hm.
  destruct (run_dispatch _ _ _ Hm Hrun) as (Hm' & _ & Hmono & more & Hmore & Hnew).
  destruct (reachable_Inv s' (reachable_run _ _ _ Hr Hrun) Hm') as [cfg HI].
  split; [apply Hmono, Hseen|]. split; [|split].
  - exists more. split; [exact Hmore|]. intros Hin.
    apply Hnew in Hin. destruct Hseen as [x Hx]. congruence.
  - apply (I_nodup _ _ HI).
  - intros l s1 Hl Hne.
    destruct (exec_started _ _ _ Hm' Hl) as [Heq|Hex]; [congruence|exact Hex].
Qed.

Lemma BgUploader_dispatch_once_witness :
  let s := after rescan (initial ∅) in
  let s' := after rescan_more s in
  is_Some (started (st_u s') !! sample_marker)
  /\ (exists more, dispatched s' = dispatched s ++ more /\ ~ In sample_marker more)
  /\ NoDup (dispatched s')
  /\ (forall l s1,
        exec l s' = Some s1 -> started (st_u s1) <> started (st_u s') ->
        exists who n rest,
          l = LScanFile who /\
          st_mutex s' = LockedByScan who (ScanLoop (n :: rest)) /\
          started (st_u s') !! n = None /\
          started (st_u s1) = <[n := n]> (started (st_u s'))).
Proof.
  apply (BgUploader_dispatch_once (after rescan (initial ∅)) sample_marker rescan_more).
  - exists ∅, rescan. vm_compute. reflexivity.
  - exists sample_marker. vm_compute. reflexivity.
  - vm_compute. reflexivity.
Defined.

(** ** The background uploader: the limit of parallel workers, and Stop *)

(** A state in which more workers run than [maxParallelWorkers] allows:
    the one [stop_race] leads to, where a worker was dispatched before
    [Stop] stored 0. *)
Lemma parallelWorkers_exceeds_max :
  exists s, reachable s /\ maxParallelWorkers (st_u s) < parallelWorkers (st_u s).
Proof.
  exists (after stop_race (initial ∅)). split.
  - exists ∅, stop_race. vm_compute. reflexivity.
  - vm_compute. reflexivity.
Qed.

Lemma exec_LScanFile_inv who s s1 :
  exec (LScanFile who) s = Some s1 ->
  exists files, st_mutex s = LockedByScan who (ScanLoop files) /\
    match files with
    | [] => s1 = scan_return who s
    | name :: rest =>
        match scan_file (st_u s) name with
        | Break => s1 = scan_return who s
        | Next u' spawned =>
            s1 = set_mutex (LockedByScan who (ScanLoop rest))
                   match spawned with
                   | Some f => set_workers (st_workers (set_u u' s)
                                 ++ [{| w_file := f; w_pc := WUpload |}]) (set_u u' s)
                   | None => set_u u' s
                   end
        end
    end.
Proof.
  cbn [exec]. intros H.
  destruct (st_mutex s) as [|who' [|files]|]; try discriminate.
  case_bool_decide; [subst who'|discriminate].
  exists files. split; [reflexivity|].
  destruct files as [|name rest]; [congruence|].
  destruct (scan_file (st_u s) name); congruence.
Qed.

(** C3, amended.  After [Start] with limit [m], the counter
    [parallelWorkers] is the number of workers that have not yet run their
    decrement, and it stays between 0 and the configured limit; it is at most
    [maxParallelWorkers] as long as [Stop] has not stored 0 there.  A pass of
    the scan loop that finds [parallelWorkers >= maxParallelWorkers] ends the
    scan (the rest of the listing is dropped); a pass that dispatches a
    worker found [parallelWorkers < maxParallelWorkers] and leaves
    [parallelWorkers <= maxParallelWorkers]. *)
Theorem parallelWorkers_bounded fs path m v ls s :
  run (LStart path m v :: ls) (initial fs) = Some s ->
  parallelWorkers (st_u s) = count_pc holds_slot (st_workers s)
  /\ 0 <= parallelWorkers (st_u s) <= configured m
  /\ maxParallelWorkers (st_u s) = (if stop_stored s then 0 else configured m)
  /\ (stop_stored s = false -> parallelWorkers (st_u s) <= maxParallelWorkers (st_u s))
  /\ (forall who s1,
        exec (LScanFile who) s = Some s1 ->
        (haveNoSlots (st_u s) = true -> s1 = scan_return who s)
        /\ (dispatched s1 = dispatched s
            \/ exists f, dispatched s1 = dispatched s ++ [f]
                 /\ parallelWorkers (st_u s) < maxParallelWorkers (st_u s)
                 /\ parallelWorkers (st_u s1) = parallelWorkers (st_u s) + 1
                 /\ maxParallelWorkers (st_u s1) = maxParallelWorkers (st_u s))).
Proof.
  intros Hrun. pose proof (run_Start_Inv _ _ _ _ _ _ Hrun) as HI.
  pose proof HI as [Hmain Hcfg Hmax Hpw Hrun' Hle Hnd Hst Hsl Hsc Hsd].
  split; [exact Hpw|]. split.
  { split; [|exact Hle]. rewrite Hpw. apply count_pc_nonneg. }
  split; [exact Hmax|]. split.
  { intros Hs. rewrite Hmax, Hs. exact Hle. }
  intros who s1 Hstep. split.
  - intros Hno. apply exec_LScanFile_inv in Hstep as (files & Hm & Hf).
    destruct files as [|name rest]; [exact Hf|].
    unfold scan_file in Hf. rewrite Hno in Hf. exact Hf.
  - pose proof (Inv_step _ _ _ _ HI Hstep) as HI1.
    destruct (exec_dispatch _ _ _ Hmain Hstep)
      as (_ & _ & _ & [Hsame|(who' & name & rest & _ & Hm & _ & _ & _ & Hlt & _ & Happ)]).
    + left. exact Hsame.
    + right. exists name. split; [exact Happ|]. split; [exact Hlt|].
      apply exec_LScanFile_inv in Hstep as (files & Hm' & Hf).
      rewrite Hm in Hm'. injection Hm' as _ <-.
      destruct (scan_file (st_u s) name) as [|u' sp] eqn:E.
      { subst s1. rewrite dispatched_scan_return in Happ.
        apply (f_equal (@length string)) in Happ. rewrite length_app in Happ.
        cbn in Happ. lia. }
      apply scan_file_Next in E as (_ & Emax & _ & _ & _ & Hsp).
      destruct sp as [f|].
      * destruct Hsp as (_ & _ & _ & _ & _ & _ & _ & Ep).
        subst s1. cbn. rewrite Ep, Emax. split; [|reflexivity].
        apply wrap32_id. unfold int32.
        pose proof (count_pc_nonneg holds_slot (st_workers s)).
        rewrite Hmax in Hlt. destruct (stop_stored s); lia.
      * subst s1. unfold dispatched in Happ. cbn in Happ.
        apply (f_equal (@length string)) in Happ. rewrite length_app in Happ.
        cbn in Happ. lia.
Qed.

Lemma parallelWorkers_bounded_witness :
  let s := after stop_race (initial ∅) in
  parallelWorkers (st_u s) = count_pc holds_slot (st_workers s)
  /\ 0 <= parallelWorkers (st_u s) <= configured 2
  /\ maxParallelWorkers (st_u s) = (if stop_stored s then 0 else configured 2)
  /\ (stop_stored s = false -> parallelWorkers (st_u s) <= maxParallelWorkers (st_u s)).
Proof.
  intros s.
  destruct (parallelWorkers_bounded ∅ sample_walFilePath 2 false (tail stop_race) s)
    as (H1 & H2 & H3 & H4 & _).
  - vm_compute. reflexivity.
  - exact (conj H1 (conj H2 (conj H3 H4))).
Defined.

(** C4.  [Stop] can block for ever.  After [stop_deadlock] the caller of
    [Stop] holds the mutex and waits for the wait group, whose counter is 1;
    the one worker stands before its call of [scanOnce], which needs the
    mutex, and has not yet called [Done]; no goroutine can take a step.
    [maxParallelWorkers] has been forced to 0, but [Stop] never returns and
    the claimed worker never completes. *)
Theorem Stop_deadlock :
  let s := after stop_deadlock (initial ∅) in
  run stop_deadlock (initial ∅) = Some s
  /\ st_main s = MStopLock
  /\ st_mutex s = LockedByStop StopWait
  /\ maxParallelWorkers (st_u s) = 0
  /\ running (st_u s) = 1
  /\ st_workers s = [{| w_file := sample_marker; w_pc := WScan |}]
  /\ st_init s = IExited
  /\ forall l, exec l s = None.
Proof.
  intros s.
  assert (st_workers s = [{| w_file := sample_marker; w_pc := WScan |}]) as Hw
    by (vm_compute; reflexivity).
  assert (st_mutex s = LockedByStop StopWait) as Hm by (vm_compute; reflexivity).
  assert (st_main s = MStopLock) as Hmain by (vm_compute; reflexivity).
  assert (st_init s = IExited) as Hi by (vm_compute; reflexivity).
  assert (running (st_u s) = 1) as Hr by (vm_compute; reflexivity).
  split; [vm_compute; reflexivity|].
  split; [exact Hmain|]. split; [exact Hm|].
  split; [vm_compute; reflexivity|]. split; [exact Hr|].
  split; [exact Hw|]. split; [exact Hi|].
  intros l. clearbody s.
  destruct l; cbn [exec]; unfold scanning, worker_at; rewrite ?Hm, ?Hmain, ?Hw, ?Hi, ?Hr;
    try reflexivity.
  all: destruct i as [|i]; reflexivity.
Qed.

(** What does hold of [Stop]: once it has stored 0, no step dispatches a
    worker, and when it has returned no worker is left. *)
Lemma stop_stored_step cfg l s s' :
  Inv cfg s -> stop_stored s = true -> exec l s = Some s' ->
  stop_stored s' = true /\ dispatched s' = dispatched s.
Proof.
  intros HI Hs H.
  pose proof (Inv_step _ _ _ _ HI H) as HI'.
  assert (dispatched s' = dispatched s) as Hd.
  { destruct (exec_dispatch _ _ _ (I_main _ _ HI) H)
      as (_ & _ & _ & [Hsame|(who & name & rest & _ & _ & _ & _ & _ & Hlt & _)]);
      [exact Hsame|].
    rewrite (I_max _ _ HI), Hs, (I_pw _ _ HI) in Hlt.
    pose proof (count_pc_nonneg holds_slot (st_workers s)). lia. }
  split; [|exact Hd].
  unfold stop_stored in *. apply orb_true_iff in Hs. apply orb_true_iff.
  rewrite !bool_decide_eq_true in *.
  destruct l; cbn [exec] in H; exec_cases H; subst;
    rewrite ?st_main_scan_return; cbn; try (destruct Hs; congruence); auto.
  all: pose proof (I_main _ _ HI).
  all: try match goal with w : scanner |- _ => destruct w end.
  all: try match goal with b : bool |- _ => destruct b end.
  all: try match goal with o : option string |- _ => destruct o end.
  all: cbn.
  all: destruct Hs as [Hs|Hs];
    [try discriminate Hs; try congruence; auto;
     try (pose proof (I_stoplock _ _ HI _ Hs); congruence)
    |try congruence; auto].
Qed.

Lemma Stop_returns_drained cfg s :
  Inv cfg s -> st_main s = MStopped ->
  maxParallelWorkers (st_u s) = 0 /\ running (st_u s) = 0 /\
  parallelWorkers (st_u s) = 0 /\
  forall i w, st_workers s !! i = Some w -> w_pc w = WExited.
Proof.
  intros HI Hm. pose proof (I_stopped _ _ HI Hm) as Hr.
  split.
  { rewrite (I_max _ _ HI). unfold stop_stored.
    rewrite (bool_decide_eq_true_2 _ Hm), orb_true_r. reflexivity. }
  split; [exact Hr|]. split.
  - pose proof (count_pc_holds_alive (st_workers s)).
    pose proof (count_pc_nonneg holds_slot (st_workers s)).
    rewrite (I_pw _ _ HI). rewrite (I_run _ _ HI) in Hr. lia.
  - intros i w Hi. eapply count_pc_zero_alive; [|exact Hi].
    rewrite <- (I_run _ _ HI). exact Hr.
Qed.

(** ** The background uploader: the lifetime cap *)

Lemma count_pc_set_le P ws pc : forall i,
  P pc = false ->
  count_pc P (alter (fun w => {| w_file := w_file w; w_pc := pc |}) i ws) <= count_pc P ws.
Proof.
  induction ws as [|x ws IH]; intros [|i] Hp; simpl; try lia.
  - rewrite Hp. destruct (P (w_pc x)); lia.
  - specialize (IH i Hp). unfold alter in IH. lia.
Qed.

Lemma Cap_scan_return cfg who s : Cap cfg s -> Cap cfg (scan_return who s).
Proof.
  intros [Hc Hn Hb]. destruct who as [|i]; constructor; cbn; auto.
  pose proof (count_pc_set_le owes_total (st_workers s) WDecrement i eq_refl). lia.
Qed.

Lemma Cap_step cfg l s s' :
  Inv cfg s -> Cap cfg s -> exec l s = Some s' -> Cap cfg s'.
Proof.
  intros HI HC H.
  pose proof HC as [Hc Hn Hb].
  pose proof (count_pc_nonneg owes_total (st_workers s)) as Hon.
  destruct l; cbn [exec] in H; exec_cases H; subst;
    try (apply Cap_scan_return); try exact HC;
    try (constructor; cbn; assumption).
  - (* one pass of the loop *)
    match goal with E : scan_file _ _ = Next _ _ |- _ =>
      apply scan_file_Next in E as (Hlt & Emax & Etot & Edir & Hmono & Hsp) end.
    destruct spawned as [f|].
    + destruct Hsp as (-> & Hnone & Hsuf & Hpos & Hcap & Est & Er & Ep).
      constructor; cbn; rewrite ?Etot; auto.
      rewrite count_pc_app. cbn.
      pose proof (count_pc_owes_holds (st_workers s)).
      pose proof (I_pw _ _ HI). pose proof (I_max _ _ HI).
      destruct (stop_stored s); lia.
    + constructor; cbn; rewrite ?Etot; auto.
  - (* UploadWALFile returns *)
    match goal with Hl : st_workers s !! i = Some ?w, E : w_pc ?w = _ |- _ =>
      pose proof (count_pc_set owes_total _ i w WRename Hl) as C; rewrite E in C end.
    constructor; cbn; auto. rewrite C. cbn. lia.
  - (* Rename *)
    match goal with Hl : st_workers s !! i = Some ?w, E : w_pc ?w = _ |- _ =>
      pose proof (count_pc_set owes_total _ i w WAddTotal Hl) as C; rewrite E in C end.
    destruct ok; constructor; cbn; auto; rewrite C; cbn; lia.
  - (* totalUploaded++ *)
    match goal with Hl : st_workers s !! i = Some ?w, E : w_pc ?w = _ |- _ =>
      pose proof (count_pc_set owes_total _ i w WScan Hl) as C; rewrite E in C;
      pose proof (count_pc_nonneg owes_total
                    (alter (fun w => {| w_file := w_file w; w_pc := WScan |}) i
                       (st_workers s))) as Hon' end.
    cbn in C.
    pose proof (I_cfg _ _ HI).
    assert (AddInt32 (totalUploaded (st_u s)) 1 = totalUploaded (st_u s) + 1) as Ea.
    { apply wrap32_id. unfold int32. lia. }
    constructor; cbn; auto; rewrite Ea; [lia|]. rewrite C. lia.
  - (* parallelWorkers-- *)
    match goal with Hl : st_workers s !! i = Some ?w, E : w_pc ?w = _ |- _ =>
      pose proof (count_pc_set owes_total _ i w WDone Hl) as C; rewrite E in C end.
    constructor; cbn; auto. rewrite C. cbn. lia.
  - (* Done *)
    match goal with Hl : st_workers s !! i = Some ?w, E : w_pc ?w = _ |- _ =>
      pose proof (count_pc_set owes_total _ i w WExited Hl) as C; rewrite E in C end.
    constructor; cbn; auto. rewrite C. cbn. lia.
Qed.

Lemma Cap_Start fs path m v s :
  configured m <= 2147483647 - 1024 ->
  exec (LStart path m v) (initial fs) = Some s -> Cap (configured m) s.
Proof.
  intros Hc. unfold exec. case_bool_decide; [|discriminate].
  unfold configured in *.
  destruct (m <? 1) eqn:E; intros [= <-]; constructor; cbn; auto; lia.
Qed.

Lemma Cap_run cfg ls : forall s s',
  Inv cfg s -> Cap cfg s -> run ls s = Some s' -> Cap cfg s'.
Proof.
  induction ls as [|l ls IH]; intros s s' HI HC H; cbn in H.
  - injection H as <-. exact HC.
  - destruct (exec l s) as [s1|] eqn:E; [|discriminate].
    eapply IH; [| |exact H].
    + eapply Inv_step; eassumption.
    + eapply Cap_step; eassumption.
Qed.

(** Every run that begins with [Start] for a limit of at most
    [2^31 - 1024] keeps the lifetime counter from wrapping around. *)
Lemma run_Start_Cap fs path m v ls s :
  configured m <= 2147483647 - 1024 ->
  run (LStart path m v :: ls) (initial fs) = Some s -> Cap (configured m) s.
Proof.
  intros Hc. cbn [run]. destruct (exec _ _) as [s1|] eqn:E; [|discriminate].
  apply Cap_run.
  - eapply Inv_Start. exact E.
  - eapply Cap_Start; eassumption.
Qed.

Lemma exec_totalUploaded l s s' :
  st_main s <> MNew -> exec l s = Some s' ->
  totalUploaded (st_u s') = totalUploaded (st_u s) \/
  (exists i w, st_workers s !! i = Some w /\ w_pc w = WAddTotal /\
     totalUploaded (st_u s') = AddInt32 (totalUploaded (st_u s)) 1).
Proof.
  intros Hmain H.
  destruct l; cbn [exec] in H; exec_cases H; subst;
    rewrite ?st_u_scan_return; try (left; reflexivity); try congruence.
  - match goal with E : scan_file _ _ = Next _ _ |- _ =>
      apply scan_file_Next in E as (_ & _ & Etot & _) end.
    left. destruct spawned; exact Etot.
  - left. destruct ok; reflexivity.
  - right. eauto.
Qed.

Lemma cap_step cfg l s s' :
  Inv cfg s -> Cap cfg s -> 1024 <= totalUploaded (st_u s) -> exec l s = Some s' ->
  dispatched s' = dispatched s /\ 1024 <= totalUploaded (st_u s').
Proof.
  intros HI HC Hcap H. split.
  - destruct (exec_dispatch _ _ _ (I_main _ _ HI) H)
      as (_ & _ & _ & [Hsame|(who & name & rest & _ & _ & _ & _ & _ & _ & Hlt & _)]);
      [exact Hsame|lia].
  - destruct (exec_totalUploaded _ _ _ (I_main _ _ HI) H)
      as [->|(i & w & Hl & Hpc & ->)]; [exact Hcap|].
    pose proof (count_pc_set owes_total _ i w WScan Hl) as C. rewrite Hpc in C.
    pose proof (count_pc_nonneg owes_total
                  (alter (fun w => {| w_file := w_file w; w_pc := WScan |}) i
                     (st_workers s))).
    cbn in C. destruct HC as [Hc Hn Hb].
    unfold AddInt32. rewrite wrap32_id; [lia|]. unfold int32. lia.
Qed.

(** C6.  In a state after [Start] whose lifetime counter has reached 1024
    (the limit being small enough for the counter not to wrap around), no
    run dispatches a worker any more, and the counter stays at or above the
    cap.  A pass of the scan loop is still taken as before and writes
    nothing to the log: the cap is no error. *)
Theorem totalUploaded_cap cfg s :
  Inv cfg s -> Cap cfg s -> 1024 <= totalUploaded (st_u s) ->
  (forall ls s', run ls s = Some s' ->
     dispatched s' = dispatched s /\ 1024 <= totalUploaded (st_u s'))
  /\ (forall who files,
        st_mutex s = LockedByScan who (ScanLoop files) ->
        exists s1, exec (LScanFile who) s = Some s1
                   /\ st_log s1 = st_log s /\ dispatched s1 = dispatched s).
Proof.
  intros HI HC Hcap. split.
  - intros ls. revert s HI HC Hcap.
    induction ls as [|l ls IH]; intros s HI HC Hcap s' H; cbn in H.
    + injection H as <-. auto.
    + destruct (exec l s) as [s1|] eqn:E; [|discriminate].
      destruct (cap_step _ _ _ _ HI HC Hcap E) as [Hd Ht].
      destruct (IH s1 (Inv_step _ _ _ _ HI E) (Cap_step _ _ _ _ HI HC E) Ht s' H)
        as [Hd' Ht'].
      split; [congruence|exact Ht'].
  - intros who files Hm.
    assert (exists s1, exec (LScanFile who) s = Some s1 /\ st_log s1 = st_log s)
      as (s1 & E & Hlog).
    { cbn [exec]. rewrite Hm. rewrite bool_decide_eq_true_2 by reflexivity.
      destruct files as [|name rest].
      - eexists. split; [reflexivity|apply st_log_scan_return].
      - destruct (scan_file (st_u s) name) as [|u' sp].
        + eexists. split; [reflexivity|apply st_log_scan_return].
        + eexists. split; [reflexivity|]. destruct sp; reflexivity. }
    exists s1. split; [exact E|]. split; [exact Hlog|].
    apply (cap_step _ _ _ _ HI HC Hcap E).
Qed.

Lemma capped_Inv : Inv 2 capped.
Proof.
  constructor; cbn; try discriminate; try lia; try reflexivity.
  - apply NoDup_singleton.
  - intros name [<-|[]]. exists "000000010000000000000050.ready"%string.
    vm_compute. reflexivity.
  - intros who pc [= <- <-]. reflexivity.
Qed.

Lemma capped_Cap : Cap 2 capped.
Proof. constructor; cbn; lia. Qed.

Lemma totalUploaded_cap_witness :
  (forall ls s', run ls capped = Some s' ->
     dispatched s' = dispatched capped /\ 1024 <= totalUploaded (st_u s'))
  /\ (forall who files,
        st_mutex capped = LockedByScan who (ScanLoop files) ->
        exists s1, exec (LScanFile who) capped = Some s1
                   /\ st_log s1 = st_log capped /\ dispatched s1 = dispatched capped).
Proof.
  apply (totalUploaded_cap 2 capped).
  - exact capped_Inv.
  - exact capped_Cap.
  - cbn. lia.
Defined.

(** ** The background uploader: markers that are seen and not dispatched *)






(** ** The background uploader: one worker *)


Lemma worker_at_lookup i pc s w :
  st_workers s !! i = Some w -> w_pc w = pc -> worker_at i pc s = Some w.
Proof.
  intros Hl Hpc. unfold worker_at. rewrite Hl.
  rewrite bool_decide_eq_true_2 by exact Hpc. reflexivity.
Qed.






(** X7.  One whole scan ([scanOnce] run without interruption) from an
    object whose counter is not negative: the limit and the lifetime counter
    are left alone; [parallelWorkers] and the wait-group counter both grow by
    the number of files dispatched; when anything was dispatched
    [parallelWorkers] ends at most at [maxParallelWorkers]; nothing is
    dispatched at the cap; no file is dispatched twice, even when the listing
    names it twice; every dispatched file is in the listing, has the ready
    suffix, was not in the seen set and is in it afterwards; and entries of
    the seen set are kept. *)
Theorem scan_files_spec files : forall u,
  0 <= parallelWorkers u -> maxParallelWorkers u <= 2147483647 ->
  let u' := fst (scan_files u files) in
  let sp := snd (scan_files u files) in
  maxParallelWorkers u' = maxParallelWorkers u
  /\ totalUploaded u' = totalUploaded u
  /\ parallelWorkers u' = parallelWorkers u + Z.of_nat (length sp)
  /\ running u' = running u + Z.of_nat (length sp)
  /\ (sp <> [] -> parallelWorkers u' <= maxParallelWorkers u)
  /\ (1024 <= totalUploaded u -> sp = [])
  /\ NoDup sp
  /\ (forall f, In f sp ->
        In f files /\ HasSuffix f readySuffix = true
        /\ started u !! f = None /\ started u' !! f = Some f)
  /\ (forall n x, started u !! n = Some x -> started u' !! n = Some x).
Proof.
  induction files as [|name rest IH]; intros u Hpw Hmax; cbn [scan_files].
  { cbn. repeat split; auto; try lia; try congruence; try apply NoDup_nil_2;
      try (intros f []). }
  destruct (scan_file u name) as [|u1 sp1] eqn:E.
  { cbn. repeat split; auto; try lia; try congruence; try apply NoDup_nil_2;
      try (intros f []). }
  pose proof (scan_file_started _ _ _ _ E) as Hst.
  apply scan_file_Next in E as (Hlt & Emax & Etot & Edir & Hmono & Hsp).
  assert (Hkeep : forall n x, started u !! n = Some x -> started u1 !! n = Some x).
  { intros n x Hn. destruct Hst as [->|[Hnone ->]]; [exact Hn|].
    rewrite lookup_insert_ne; [exact Hn|]. congruence. }
  destruct sp1 as [f1|].
  - destruct Hsp as (-> & Hnone & Hsuf & Hpos & Hcap & Est & Er & Ep).
    assert (AddInt32 (parallelWorkers u) 1 = parallelWorkers u + 1) as Ea.
    { apply wrap32_id. unfold int32. lia. }
    rewrite Ea in Ep.
    specialize (IH u1). rewrite Ep, Emax in IH.
    specialize (IH ltac:(lia) Hmax).
    destruct (scan_files u1 rest) as [u2 more]. cbn [fst snd from_option] in *.
    destruct IH as (Im & It & Ip & Ir & Ile & Icap & Ind & Iin & Ikeep).
    assert (~ In name more) as Hfresh.
    { intros Hin. destruct (Iin _ Hin) as (_ & _ & Hn & _).
      rewrite Est, lookup_insert_eq in Hn. discriminate. }
    split; [congruence|]. split; [congruence|].
    split; [cbn [app length]; lia|]. split; [cbn [app length]; lia|].
    split.
    { intros _. destruct more as [|m0 more'].
      - cbn in Ip. lia.
      - apply Ile. discriminate. }
    split; [intros; lia|].
    split.
    { cbn [app]. apply NoDup_cons. split; [|exact Ind].
      intros Hin. apply Hfresh. apply list_elem_of_In. exact Hin. }
    split.
    { intros f [<-|Hin].
      - split; [left; reflexivity|]. split; [exact Hsuf|]. split; [exact Hnone|].
        apply Ikeep. rewrite Est. apply lookup_insert_eq.
      - destruct (Iin _ Hin) as (Hr & Hs & Hn & Hs').
        split; [right; exact Hr|]. split; [exact Hs|]. split; [|exact Hs'].
        destruct (started u !! f) as [x|] eqn:Ex; [|reflexivity].
        rewrite (Hkeep _ _ Ex) in Hn. discriminate. }
    intros n x Hn. apply Ikeep, Hkeep, Hn.
  - destruct Hsp as (Ep & Er).
    specialize (IH u1). rewrite Ep, Emax in IH. specialize (IH Hpw Hmax).
    destruct (scan_files u1 rest) as [u2 more]. cbn [fst snd from_option app] in *.
    destruct IH as (Im & It & Ip & Ir & Ile & Icap & Ind & Iin & Ikeep).
    split; [congruence|]. split; [congruence|].
    split; [lia|]. split; [lia|].
    split; [exact Ile|].
    split; [intros Hc; apply Icap; lia|].
    split; [exact Ind|].
    split.
    { intros f Hin. destruct (Iin _ Hin) as (Hr & Hs & Hn & Hs').
      split; [right; exact Hr|]. split; [exact Hs|]. split; [|exact Hs'].
      destruct (started u !! f) as [x|] eqn:Ex; [|reflexivity].
      rewrite (Hkeep _ _ Ex) in Hn. discriminate. }
    intros n x Hn. apply Ikeep, Hkeep, Hn.
Qed.

(** ** The background uploader: further properties *)

Lemma idle_step l s s' :
  st_main s <> MNew -> st_workers s = [] -> st_init s = INone ->
  (forall who pc, st_mutex s <> LockedByScan who pc) ->
  maxParallelWorkers (st_u s) = 0 ->
  exec l s = Some s' ->
  st_main s' <> MNew /\ st_workers s' = [] /\ st_init s' = INone
  /\ (forall who pc, st_mutex s' <> LockedByScan who pc)
  /\ st_u s' = st_u s /\ st_fs s' = st_fs s /\ st_log s' = st_log s.
Proof.
  intros Hmain Hw Hi Hm Hmax H.
  destruct l; cbn [exec] in H.
  - exec_cases H; congruence.
  - exec_cases H. cbn. auto 10.
  - exec_cases H; cbn; auto 10.
  - exec_cases H. cbn. repeat split; auto; discriminate.
  - exec_cases H. cbn. repeat split; auto; try discriminate.
    destruct (st_u s); cbn in *; subst; reflexivity.
  - exec_cases H. cbn. repeat split; auto; discriminate.
  - exec_cases H. destruct who as [|i]; cbn in *.
    + exec_facts. congruence.
    + unfold worker_at in *. rewrite Hw in *. cbn in *. exec_facts. discriminate.
  - exec_cases H; exfalso;
      match goal with E : st_mutex s = LockedByScan _ _ |- _ => exact (Hm _ _ E) end.
  - exec_cases H; exfalso; exact (Hm _ _ eq_refl).
  - unfold worker_at in H. rewrite Hw in H. discriminate.
  - unfold worker_at in H. rewrite Hw in H. discriminate.
  - unfold worker_at in H. rewrite Hw in H. discriminate.
  - unfold worker_at in H. rewrite Hw in H. discriminate.
  - unfold worker_at in H. rewrite Hw in H. discriminate.
Qed.

Lemma idle_run ls : forall s s',
  st_main s <> MNew -> st_workers s = [] -> st_init s = INone ->
  (forall who pc, st_mutex s <> LockedByScan who pc) ->
  maxParallelWorkers (st_u s) = 0 ->
  run ls s = Some s' ->
  st_workers s' = [] /\ st_init s' = INone
  /\ st_u s' = st_u s /\ st_fs s' = st_fs s /\ st_log s' = st_log s.
Proof.
  induction ls as [|l ls IH]; intros s s' Hmain Hw Hi Hm Hmax H; cbn in H.
  - injection H as <-. auto.
  - destruct (exec l s) as [s1|] eqn:E; [|discriminate].
    destruct (idle_step _ _ _ Hmain Hw Hi Hm Hmax E)
      as (Hmain1 & Hw1 & Hi1 & Hm1 & Hu1 & Hfs1 & Hlog1).
    destruct (IH s1 s' Hmain1 Hw1 Hi1 Hm1 ltac:(congruence) H)
      as (Hw' & Hi' & Hu' & Hfs' & Hlog').
    repeat split; congruence.
Qed.

(** X1.  [Start] with a limit below 1 starts nothing: in every state that
    follows, the object is still the zero value, no goroutine and no worker
    exists, and the file system and the log are untouched; and [Stop] then
    runs through without waiting. *)
Theorem Start_below_one fs path m v ls s :
  m < 1 ->
  run (LStart path m v :: ls) (initial fs) = Some s ->
  st_u s = newBgUploader /\ st_workers s = [] /\ st_init s = INone
  /\ st_fs s = fs /\ st_log s = []
  /\ (st_main s = MStarted ->
      exists s', run [LStop; LStopLoad; LStopLock; LStopStore; LStopWait] s = Some s'
                 /\ st_main s' = MStopped).
Proof.
  intros Hm Hrun. pose proof (run_Start_Inv _ _ _ _ _ _ Hrun) as HI.
  cbn [run exec] in Hrun.
  case_bool_decide as Hg; [|discriminate].
  apply Z.ltb_lt in Hm. rewrite Hm in Hrun.
  destruct (idle_run ls (set_main MStarted (initial fs)) s)
    as (Hw & Hi & Hu & Hfs & Hlog); try reflexivity; try discriminate; try exact Hrun.
  cbn in Hu, Hfs, Hlog.
  repeat split; auto.
  intros Hmain.
  assert (st_mutex s = Unlocked) as Hmx.
  { destruct (st_mutex s) as [|who pc|pc] eqn:E; [reflexivity| |].
    - pose proof (I_scan _ _ HI _ _ E) as Hs. destruct who as [|i]; cbn in Hs.
      + apply bool_decide_eq_true in Hs. congruence.
      + apply bool_decide_eq_true in Hs. destruct Hs as [w Hs].
        apply worker_at_Some in Hs as [Hl _]. rewrite Hw in Hl. discriminate.
    - pose proof (I_stoplock _ _ HI _ E). congruence. }
  clear HI Hrun. destruct s as [u mx mn ini ws fs' lg]. cbn in *. subst.
  eexists. split; reflexivity.
Qed.

Lemma run_ready ls : forall s s',
  st_main s <> MNew -> run ls s = Some s' ->
  Forall (fun f => HasSuffix f readySuffix = true) (dispatched s) ->
  Forall (fun f => HasSuffix f readySuffix = true) (dispatched s').
Proof.
  induction ls as [|l ls IH]; intros s s' Hm H HF; cbn in H.
  - injection H as <-. exact HF.
  - destruct (exec l s) as [s1|] eqn:E; [|discriminate].
    destruct (exec_dispatch _ _ _ Hm E) as (Hm1 & _ & _ & Hd).
    apply (IH s1 s' Hm1 H).
    destruct Hd as [->|(who & name & rest & _ & _ & _ & _ & Hsuf & _ & _ & ->)];
      [exact HF|].
    apply Forall_app. split; [exact HF|]. constructor; [exact Hsuf|constructor].
Qed.

(** X3.  Only markers are uploaded: every file handed to a worker has the
    suffix [.ready], and its name is in the seen set. *)
Theorem dispatched_ready s :
  reachable s ->
  Forall (fun f => HasSuffix f readySuffix = true
                   /\ is_Some (started (st_u s) !! f)) (dispatched s).
Proof.
  intros Hr. destruct (reachable_cases s Hr) as [[fs ->]|(fs & path & m & v & ls & H)].
  { constructor. }
  pose proof (run_Start_Inv _ _ _ _ _ _ H) as HI.
  cbn [run] in H. destruct (exec _ _) as [s1|] eqn:E; [|discriminate].
  pose proof (Inv_Start _ _ _ _ _ E) as HI1.
  assert (dispatched s1 = []) as Hd1.
  { cbn [exec] in E. exec_cases E; reflexivity. }
  pose proof (run_ready ls s1 s (I_main _ _ HI1) H) as HF.
  rewrite Hd1 in HF. specialize (HF (Forall_nil_2 _)).
  rewrite Forall_forall in HF. apply Forall_forall. intros f Hf.
  split; [apply HF, Hf|]. apply (I_started _ _ HI). apply list_elem_of_In. exact Hf.
Qed.

Lemma started_kept_step l s s' n x :
  st_main s <> MNew -> exec l s = Some s' ->
  started (st_u s) !! n = Some x -> started (st_u s') !! n = Some x.
Proof.
  intros Hm H Hn.
  destruct (exec_started _ _ _ Hm H) as [->|(who & name & rest & _ & _ & Hnone & ->)];
    [exact Hn|].
  rewrite lookup_insert_ne; [exact Hn|]. congruence.
Qed.

Lemma started_kept_run ls n x : forall s s',
  st_main s <> MNew -> run ls s = Some s' ->
  started (st_u s) !! n = Some x -> started (st_u s') !! n = Some x.
Proof.
  induction ls as [|l ls IH]; intros s s' Hm H Hn; cbn in H.
  - injection H as <-. exact Hn.
  - destruct (exec l s) as [s1|] eqn:E; [|discriminate].
    destruct (exec_dispatch _ _ _ Hm E) as (Hm1 & _).
    apply (IH s1 s' Hm1 H). exact (started_kept_step _ _ _ _ _ Hm E Hn).
Qed.

(** X2.  The segment that [Start] is called for is never handed to a
    background worker: its marker name is put into the seen set by [Start]
    and stays there, bound to the path given. *)
Theorem Start_segment_not_dispatched fs path m v ls s :
  run (LStart path m v :: ls) (initial fs) = Some s ->
  Forall (fun f => f <> (filepath_Base path +:+ readySuffix)%string) (dispatched s)
  /\ (1 <= m -> started (st_u s) !! (filepath_Base path +:+ readySuffix)%string = Some path).
Proof.
  intros H. cbn [run] in H. destruct (exec _ _) as [s1|] eqn:E; [|discriminate].
  pose proof (Inv_Start _ _ _ _ _ E) as HI1.
  cbn [exec] in E. case_bool_decide as Hg; [|discriminate].
  destruct (m <? 1) eqn:Em.
  - injection E as <-.
    destruct (idle_run ls (set_main MStarted (initial fs)) s) as (Hw & _);
      try reflexivity; try discriminate; try exact H.
    unfold dispatched. rewrite Hw. split; [constructor|].
    apply Z.ltb_lt in Em. lia.
  - injection E as <-.
    set (s1 := set_init IScan _) in *.
    assert (started (st_u s1) !! (filepath_Base path +:+ readySuffix)%string = Some path)
      as Hk by (subst s1; cbn; apply lookup_singleton_eq).
    destruct (run_dispatch _ _ _ (I_main _ _ HI1) H) as (_ & _ & _ & more & Hmore & Hnew).
    split.
    + rewrite Hmore. cbn [dispatched st_workers s1 set_init set_main set_u initial map app].
      apply Forall_forall. intros f Hf Heq. subst f.
      apply list_elem_of_In, Hnew in Hf. congruence.
    + intros _. eapply started_kept_run; [apply (I_main _ _ HI1)|exact H|exact Hk].
Qed.

(** X4.  The counter of the wait group is the number of workers that have
    not yet called [Done]; [parallelWorkers] lies between 0 and that number;
    so a worker that stands before [Done] finds the counter positive, and
    [Done] never drives it below zero. *)
Theorem WaitGroup_counts_workers fs path m v ls s :
  run (LStart path m v :: ls) (initial fs) = Some s ->
  running (st_u s) = count_pc alive (st_workers s)
  /\ 0 <= parallelWorkers (st_u s) <= running (st_u s)
  /\ (forall i w, st_workers s !! i = Some w -> w_pc w = WDone ->
        exists s', exec (LWgDone i) s = Some s'
                   /\ running (st_u s') = running (st_u s) - 1).
Proof.
  intros H. pose proof (run_Start_Inv _ _ _ _ _ _ H) as HI.
  split; [apply (I_run _ _ HI)|]. split.
  { rewrite (I_pw _ _ HI), (I_run _ _ HI). split.
    - apply count_pc_nonneg.
    - apply count_pc_holds_alive. }
  intros i w Hl Hpc.
  assert (0 < running (st_u s)) as Hpos.
  { rewrite (I_run _ _ HI).
    pose proof (count_pc_set alive _ i w WExited Hl) as C. rewrite Hpc in C. cbn in C.
    pose proof (count_pc_nonneg alive
                  (alter (fun w => {| w_file := w_file w; w_pc := WExited |}) i
                     (st_workers s))). lia. }
  eexists. split.
  - cbn [exec]. rewrite (worker_at_lookup i WDone s w Hl Hpc).
    rewrite bool_decide_eq_true_2 by exact Hpos. reflexivity.
  - reflexivity.
Qed.

Lemma stop_stored_run cfg ls : forall s s',
  Inv cfg s -> stop_stored s = true -> run ls s = Some s' ->
  stop_stored s' = true /\ dispatched s' = dispatched s.
Proof.
  induction ls as [|l ls IH]; intros s s' HI Hs H; cbn in H.
  - injection H as <-. auto.
  - destruct (exec l s) as [s1|] eqn:E; [|discriminate].
    destruct (stop_stored_step _ _ _ _ HI Hs E) as [Hs1 Hd1].
    destruct (IH s1 s' (Inv_step _ _ _ _ HI E) Hs1 H) as [Hs' Hd'].
    split; [exact Hs'|congruence].
Qed.

Lemma main_stopped_step l s s' :
  st_main s = MStopped -> exec l s = Some s' -> st_main s' = MStopped.
Proof.
  intros Hm H.
  destruct l; cbn [exec] in H; exec_cases H; subst;
    rewrite ?st_main_scan_return; try congruence; try reflexivity; try assumption.
  - destruct spawned; exact Hm.
  - destruct ok; exact Hm.
Qed.

Lemma main_stopped_run ls : forall s s',
  st_main s = MStopped -> run ls s = Some s' -> st_main s' = MStopped.
Proof.
  induction ls as [|l ls IH]; intros s s' Hm H; cbn in H.
  - injection H as <-. exact Hm.
  - destruct (exec l s) as [s1|] eqn:E; [|discriminate].
    apply (IH s1 s'); [|exact H]. eapply main_stopped_step; eassumption.
Qed.

Lemma stopped_workers_step cfg l s s' :
  Inv cfg s -> st_main s = MStopped -> exec l s = Some s' ->
  st_workers s' = st_workers s.
Proof.
  intros HI Hm E.
  destruct (Stop_returns_drained _ _ HI Hm) as (_ & _ & _ & Hw).
  assert (stop_stored s = true) as Hs.
  { unfold stop_stored. rewrite (bool_decide_eq_true_2 _ Hm). apply orb_true_r. }
  destruct (stop_stored_step _ _ _ _ HI Hs E) as [_ Hd].
  destruct l; cbn [exec] in E; exec_cases E; subst; try reflexivity; try congruence;
    try (match goal with Hl : st_workers _ !! _ = Some ?w, Hp : w_pc ?w = _ |- _ =>
           rewrite (Hw _ _ Hl) in Hp; discriminate end).
  all: try (destruct who as [|i]; [reflexivity|]).
  all: try (pose proof (I_scan _ _ HI _ _ ltac:(eassumption)) as Hsc; cbn in Hsc;
            exec_facts;
            match goal with Hl : st_workers _ !! _ = Some ?w, Hp : w_pc ?w = _ |- _ =>
              rewrite (Hw _ _ Hl) in Hp; discriminate end).
  destruct spawned; [|reflexivity].
  unfold dispatched in Hd. cbn in Hd. rewrite map_app in Hd.
  apply (f_equal (@length string)) in Hd. rewrite length_app in Hd. cbn in Hd. lia.
Qed.

Lemma stopped_workers_run cfg ls : forall s s',
  Inv cfg s -> st_main s = MStopped -> run ls s = Some s' ->
  st_workers s' = st_workers s.
Proof.
  induction ls as [|l ls IH]; intros s s' HI Hm H; cbn in H.
  - injection H as <-. reflexivity.
  - destruct (exec l s) as [s1|] eqn:E; [|discriminate].
    rewrite <- (stopped_workers_step _ _ _ _ HI Hm E).
    apply (IH s1 s' (Inv_step _ _ _ _ HI E)); [|exact H].
    eapply main_stopped_step; eassumption.
Qed.

(** X5.  When [Stop] has returned, [maxParallelWorkers], [parallelWorkers]
    and the wait-group counter are 0 and every worker has ended; whatever
    runs afterwards dispatches no worker. *)
Theorem Stop_returned_drained fs path m v ls s :
  run (LStart path m v :: ls) (initial fs) = Some s ->
  st_main s = MStopped ->
  maxParallelWorkers (st_u s) = 0
  /\ running (st_u s) = 0
  /\ parallelWorkers (st_u s) = 0
  /\ Forall (fun w => w_pc w = WExited) (st_workers s)
  /\ (forall ls' s', run ls' s = Some s' ->
        st_main s' = MStopped /\ st_workers s' = st_workers s).
Proof.
  intros H Hm. pose proof (run_Start_Inv _ _ _ _ _ _ H) as HI.
  destruct (Stop_returns_drained _ _ HI Hm) as (Hmax & Hr & Hp & Hw).
  split; [exact Hmax|]. split; [exact Hr|]. split; [exact Hp|]. split.
  { apply Forall_lookup. exact Hw. }
  intros ls' s' H'. split.
  - eapply main_stopped_run; eassumption.
  - eapply stopped_workers_run; eassumption.
Qed.

(** X6.  When [Stop] holds the mutex and the wait group is at 0, nothing
    but [Stop] itself can take a step, the counter stays 0, and [Stop]
    returns: it blocks only for workers that are still counted. *)
Theorem Stop_completes_without_workers fs path m v ls s pc :
  run (LStart path m v :: ls) (initial fs) = Some s ->
  st_mutex s = LockedByStop pc -> running (st_u s) = 0 ->
  (forall l s', exec l s = Some s' ->
     running (st_u s') = 0
     /\ ((l = LStopStore /\ st_mutex s' = LockedByStop StopWait)
         \/ (l = LStopWait /\ st_main s' = MStopped)))
  /\ exists s',
       run (match pc with
            | StopStore => [LStopStore; LStopWait]
            | StopWait => [LStopWait]
            end) s = Some s'
       /\ st_main s' = MStopped.
Proof.
  intros H Hm Hr. pose proof (run_Start_Inv _ _ _ _ _ _ H) as HI.
  pose proof (I_stoplock _ _ HI _ Hm) as Hmain.
  assert (forall i w, st_workers s !! i = Some w -> w_pc w = WExited) as Hw.
  { intros i w Hl. eapply count_pc_zero_alive; [|exact Hl].
    rewrite <- (I_run _ _ HI). exact Hr. }
  split.
  - intros l s' E.
    destruct l; cbn [exec] in E; rewrite ?Hm, ?Hmain in E; try discriminate E;
      exec_cases E; subst; try congruence;
      try (match goal with Hl : st_workers _ !! _ = Some ?w, Hp : w_pc ?w = _ |- _ =>
             rewrite (Hw _ _ Hl) in Hp; discriminate end).
    + cbn. auto.
    + cbn. auto.
  - destruct pc; cbn [run exec]; rewrite Hm.
    + rewrite bool_decide_eq_true_2 by reflexivity. cbn.
      rewrite bool_decide_eq_true_2 by auto. eexists. split; reflexivity.
    + rewrite bool_decide_eq_true_2 by auto. eexists. split; reflexivity.
Qed.





Lemma scan_files_spec_witness :
  let u := Start newBgUploader sample_walFilePath 2 false in
  let u' := fst (scan_files u sample_listing) in
  let sp := snd (scan_files u sample_listing) in
  sp = [sample_marker; "000000010000000000000053.ready"%string]
  /\ maxParallelWorkers u' = maxParallelWorkers u
  /\ totalUploaded u' = totalUploaded u
  /\ parallelWorkers u' = parallelWorkers u + Z.of_nat (length sp)
  /\ running u' = running u + Z.of_nat (length sp)
  /\ (sp <> [] -> parallelWorkers u' <= maxParallelWorkers u)
  /\ (1024 <= totalUploaded u -> sp = [])
  /\ NoDup sp
  /\ (forall f, In f sp ->
        In f sample_listing /\ HasSuffix f readySuffix = true
        /\ started u !! f = None /\ started u' !! f = Some f)
  /\ (forall n x, started u !! n = Some x -> started u' !! n = Some x).
Proof.
  split; [vm_compute; reflexivity|].
  apply (scan_files_spec sample_listing (Start newBgUploader sample_walFilePath 2 false)).
  - cbn. lia.
  - cbn. lia.
Defined.

Lemma Start_below_one_witness :
  let s := after [LStart sample_walFilePath 0 false] (initial ∅) in
  st_u s = newBgUploader /\ st_workers s = [] /\ st_init s = INone
  /\ st_fs s = ∅ /\ st_log s = []
  /\ (st_main s = MStarted ->
      exists s', run [LStop; LStopLoad; LStopLock; LStopStore; LStopWait] s = Some s'
                 /\ st_main s' = MStopped).
Proof.
  apply (Start_below_one ∅ sample_walFilePath 0 false []).
  - lia.
  - vm_compute. reflexivity.
Defined.

Lemma dispatched_ready_witness :
  let s := after rescan (initial ∅) in
  dispatched s = [sample_marker]
  /\ Forall (fun f => HasSuffix f readySuffix = true
                      /\ is_Some (started (st_u s) !! f)) (dispatched s).
Proof.
  split; [vm_compute; reflexivity|].
  apply (dispatched_ready (after rescan (initial ∅))).
  exists ∅, rescan. vm_compute. reflexivity.
Defined.

Lemma Start_segment_not_dispatched_witness :
  let s := after (rescan ++ rescan_more) (initial ∅) in
  Forall (fun f => f <> (filepath_Base sample_walFilePath +:+ readySuffix)%string)
    (dispatched s)
  /\ (1 <= 2 ->
      started (st_u s) !! (filepath_Base sample_walFilePath +:+ readySuffix)%string
      = Some sample_walFilePath).
Proof.
  apply (Start_segment_not_dispatched ∅ sample_walFilePath 2 false
           (tail (rescan ++ rescan_more))).
  vm_compute. reflexivity.
Defined.

Lemma WaitGroup_counts_workers_witness :
  let s := after (removelast (rescan ++ rescan_more)) (initial ∅) in
  running (st_u s) = count_pc alive (st_workers s)
  /\ 0 <= parallelWorkers (st_u s) <= running (st_u s)
  /\ exists s', exec (LWgDone 0) s = Some s'
                /\ running (st_u s') = running (st_u s) - 1.
Proof.
  intros s.
  destruct (WaitGroup_counts_workers ∅ sample_walFilePath 2 false
              (tail (removelast (rescan ++ rescan_more))) s) as (H1 & H2 & H3).
  - vm_compute. reflexivity.
  - split; [exact H1|]. split; [exact H2|].
    apply (H3 0%nat {| w_file := sample_marker; w_pc := WDone |}).
    + vm_compute. reflexivity.
    + reflexivity.
Defined.

Lemma Stop_returned_drained_witness :
  let s := after stop_clean (initial ∅) in
  maxParallelWorkers (st_u s) = 0
  /\ running (st_u s) = 0
  /\ parallelWorkers (st_u s) = 0
  /\ Forall (fun w => w_pc w = WExited) (st_workers s)
  /\ (forall ls' s', run ls' s = Some s' ->
        st_main s' = MStopped /\ st_workers s' = st_workers s).
Proof.
  apply (Stop_returned_drained ∅ sample_walFilePath 2 false (tail stop_clean)).
  - vm_compute. reflexivity.
  - vm_compute. reflexivity.
Defined.

Lemma Stop_completes_without_workers_witness :
  let s := after stop_locked (initial ∅) in
  (forall l s', exec l s = Some s' ->
     running (st_u s') = 0
     /\ ((l = LStopStore /\ st_mutex s' = LockedByStop StopWait)
         \/ (l = LStopWait /\ st_main s' = MStopped)))
  /\ exists s', run [LStopStore; LStopWait] s = Some s' /\ st_main s' = MStopped.
Proof.
  apply (Stop_completes_without_workers ∅ sample_walFilePath 2 false (tail stop_locked)
           (after stop_locked (initial ∅)) StopStore).
  - vm_compute. reflexivity.
  - vm_compute. reflexivity.
  - vm_compute. reflexivity.
Defined.


(** ** Configure and UploadWal: further properties *)

Lemma wrap_Ok_inv {A} (r : result A) msg a : wrap r msg = Ok a -> r = Ok a.
Proof. destruct r; cbn; congruence. Qed.

Lemma chars_nil s : length (chars s) = 0%nat -> s = ""%string.
Proof. destruct s; [reflexivity|discriminate]. Qed.

Lemma Configure_Ok_inv w tu pre :
  Configure w = Ok (tu, pre) ->
  Getenv (cw_env w) "WALE_S3_PREFIX" <> ""%string
  /\ exists u region,
       cw_url_Parse w (Getenv (cw_env w) "WALE_S3_PREFIX") = Ok u
       /\ Scheme u <> ""%string /\ Host u <> ""%string
       /\ cw_credentials_Get w = Ok tt
       /\ (Getenv (cw_env w) "AWS_S3_FORCE_PATH_STYLE" = ""%string
           \/ exists b, ParseBool (Getenv (cw_env w) "AWS_S3_FORCE_PATH_STYLE") = Ok b)
       /\ (if bool_decide (Getenv (cw_env w) "AWS_REGION" = ""%string)
           then cw_findS3BucketRegion w (Host u) = Ok region
           else region = Getenv (cw_env w) "AWS_REGION")
       /\ cw_NewSession w region = Ok tt
       /\ pre = {| Bucket := Host u; Server := serverOfPath (Path u) |}
       /\ tu = set_Upl (CreateUploader (20 * 1024 * 1024) (cw_getMaxUploadConcurrency w 10))
                 (from_option set_SSEKMSKeyId id (LookupEnv (cw_env w) "WALG_S3_SSE_KMS_ID")
                    (from_option set_ServerSideEncryption id
                       (LookupEnv (cw_env w) "WALG_S3_SSE")
                       (from_option set_StorageClass id
                          (LookupEnv (cw_env w) "WALG_S3_STORAGE_CLASS")
                          (cw_NewTarUploader w (Host u) (serverOfPath (Path u)) region))))
       /\ ~ sse_mismatch (cw_env w).
Proof.
  unfold Configure. intros H.
  case_bool_decide as Hp; [discriminate|]. split; [exact Hp|].
  destruct (wrap (cw_url_Parse w _) _) as [u|] eqn:Eu; cbn [bind_result] in H;
    [|discriminate].
  apply wrap_Ok_inv in Eu.
  destruct (bool_decide (Scheme u = ""%string) || bool_decide (Host u = ""%string)) eqn:Esh;
    [discriminate|].
  apply orb_false_iff in Esh as [Es Eh].
  apply bool_decide_eq_false in Es, Eh.
  destruct (wrap (cw_credentials_Get w) _) as [[]|] eqn:Ec; cbn [bind_result] in H;
    [|discriminate].
  apply wrap_Ok_inv in Ec.
  match type of H with bind_result ?r _ = _ => destruct r as [fps|] eqn:Ef end;
    cbn [bind_result] in H; [|discriminate].
  match type of H with bind_result ?r _ = _ => destruct r as [region|] eqn:Er end;
    cbn [bind_result] in H; [|discriminate].
  destruct (wrap (cw_NewSession w region) _) as [[]|] eqn:En; cbn [bind_result] in H;
    [|discriminate].
  apply wrap_Ok_inv in En.
  match type of H with (if ?b then _ else _) = _ => destruct b eqn:Ek end; [discriminate|].
  injection H as <- <-.
  exists u, region.
  split; [exact Eu|]. split; [exact Es|]. split; [exact Eh|]. split; [exact Ec|].
  split.
  { destruct (bool_decide (0 < length (chars (Getenv (cw_env w) "AWS_S3_FORCE_PATH_STYLE")))%nat)
      eqn:Hl.
    - right. exists fps. eapply wrap_Ok_inv. exact Ef.
    - left. apply bool_decide_eq_false in Hl. apply chars_nil. lia. }
  split.
  { destruct (bool_decide (Getenv (cw_env w) "AWS_REGION" = ""%string));
      [eapply wrap_Ok_inv; exact Er|congruence]. }
  split; [exact En|]. split; [reflexivity|]. split.
  { unfold LookupEnv.
    destruct (cw_env w !! "WALG_S3_STORAGE_CLASS"%string),
             (cw_env w !! "WALG_S3_SSE"%string),
             (cw_env w !! "WALG_S3_SSE_KMS_ID"%string); reflexivity. }
  intros Hm. apply sse_mismatch_eqb in Hm. congruence.
Qed.

(** X9.  What a successful [Configure] returns: the prefix parsed to a
    URL with a scheme and a host; the bucket is the host and the server is
    the path without its first character and without one trailing slash; the
    uploader has parts of 20 MiB and the concurrency of
    [getMaxUploadConcurrency(10)]; each of the three variables for storage
    class, encryption mode and key identifier, when set, is the field of the
    uploader; and mode and key identifier agree. *)
Theorem Configure_result w tu pre :
  Configure w = Ok (tu, pre) ->
  exists u,
    cw_url_Parse w (Getenv (cw_env w) "WALE_S3_PREFIX") = Ok u
    /\ Scheme u <> ""%string /\ Host u <> ""%string
    /\ Bucket pre = Host u
    /\ Server pre = serverOfPath (Path u)
    /\ Upl tu = Some {| PartSize := 20971520;
                        Concurrency := cw_getMaxUploadConcurrency w 10 |}
    /\ (forall v, LookupEnv (cw_env w) "WALG_S3_STORAGE_CLASS" = Some v -> StorageClass tu = v)
    /\ (forall v, LookupEnv (cw_env w) "WALG_S3_SSE" = Some v -> ServerSideEncryption tu = v)
    /\ (forall v, LookupEnv (cw_env w) "WALG_S3_SSE_KMS_ID" = Some v -> SSEKMSKeyId tu = v)
    /\ ~ sse_mismatch (cw_env w).
Proof.
  intros H.
  destruct (Configure_Ok_inv _ _ _ H)
    as (_ & u & region & Eu & Es & Eh & _ & _ & _ & _ & -> & -> & Hk).
  exists u. split; [exact Eu|]. split; [exact Es|]. split; [exact Eh|].
  split; [reflexivity|]. split; [reflexivity|]. split; [reflexivity|].
  split; [|split; [|split; [|exact Hk]]]; intros v Hv; rewrite ?Hv; cbn.
  - destruct (LookupEnv (cw_env w) "WALG_S3_SSE_KMS_ID"),
             (LookupEnv (cw_env w) "WALG_S3_SSE"); reflexivity.
  - destruct (LookupEnv (cw_env w) "WALG_S3_SSE_KMS_ID"); reflexivity.
  - reflexivity.
Qed.

(** X10.  The region of a successful [Configure]: [AWS_REGION] when it is
    not empty; otherwise what [findS3BucketRegion] finds, which asks through
    a session for us-east-1 and reads a bucket without location constraint
    as us-east-1.  The session and the uploader are made for that region. *)
Theorem Configure_region w newSession getBucketLocation tu pre :
  cw_findS3BucketRegion w = findS3BucketRegion newSession getBucketLocation ->
  Configure w = Ok (tu, pre) ->
  exists u reg,
    cw_url_Parse w (Getenv (cw_env w) "WALE_S3_PREFIX") = Ok u
    /\ cw_NewSession w reg = Ok tt
    /\ bucket tu = bucket (cw_NewTarUploader w (Host u) (serverOfPath (Path u)) reg)
    /\ region tu = region (cw_NewTarUploader w (Host u) (serverOfPath (Path u)) reg)
    /\ (Getenv (cw_env w) "AWS_REGION" <> ""%string -> reg = Getenv (cw_env w) "AWS_REGION")
    /\ (Getenv (cw_env w) "AWS_REGION" = ""%string ->
        newSession "us-east-1"%string = Ok tt
        /\ ((getBucketLocation (Host u) = Ok None /\ reg = "us-east-1"%string)
            \/ getBucketLocation (Host u) = Ok (Some reg))).
Proof.
  intros Hf H.
  destruct (Configure_Ok_inv _ _ _ H)
    as (_ & u & reg & Eu & _ & _ & _ & _ & Hr & En & _ & -> & _).
  exists u, reg. split; [exact Eu|]. split; [exact En|].
  split.
  { destruct (LookupEnv (cw_env w) "WALG_S3_SSE_KMS_ID"),
             (LookupEnv (cw_env w) "WALG_S3_SSE"),
             (LookupEnv (cw_env w) "WALG_S3_STORAGE_CLASS"); reflexivity. }
  split.
  { destruct (LookupEnv (cw_env w) "WALG_S3_SSE_KMS_ID"),
             (LookupEnv (cw_env w) "WALG_S3_SSE"),
             (LookupEnv (cw_env w) "WALG_S3_STORAGE_CLASS"); reflexivity. }
  case_bool_decide as Hreg.
  - split; [congruence|]. intros _.
    rewrite Hf in Hr. unfold findS3BucketRegion in Hr.
    destruct (newSession "us-east-1"%string) as [[]|]; cbn [bind_result] in Hr;
      [|discriminate].
    split; [reflexivity|].
    destruct (getBucketLocation (Host u)) as [[loc|]|]; cbn [bind_result] in Hr;
      try discriminate; injection Hr as <-; auto.
  - split; [intros _; exact Hr|]. intros Hc. contradiction.
Qed.

(** X11.  [Configure] and [createUploadInput] together, for a
    [NewTarUploader] that leaves mode and key identifier empty: the uploader
    carries the two variables, and an upload input names a KMS key exactly
    when the mode is aws:kms, in which case the key is not empty. *)
Theorem Configure_createUploadInput_kms w tu pre path :
  (forall b s r, ServerSideEncryption (cw_NewTarUploader w b s r) = ""%string
                 /\ SSEKMSKeyId (cw_NewTarUploader w b s r) = ""%string) ->
  Configure w = Ok (tu, pre) ->
  let input := createUploadInput tu path in
  ServerSideEncryption tu = Getenv (cw_env w) "WALG_S3_SSE"
  /\ SSEKMSKeyId tu = Getenv (cw_env w) "WALG_S3_SSE_KMS_ID"
  /\ (ServerSideEncryption tu = "aws:kms"%string ->
      SSEKMSKeyId tu <> ""%string
      /\ ui_ServerSideEncryption input = Some "aws:kms"%string
      /\ ui_SSEKMSKeyId input = Some (SSEKMSKeyId tu))
  /\ (ServerSideEncryption tu <> "aws:kms"%string ->
      SSEKMSKeyId tu = ""%string /\ ui_SSEKMSKeyId input = None).
Proof.
  intros Hbase H input.
  destruct (Configure_Ok_inv _ _ _ H)
    as (_ & u & region & _ & _ & _ & _ & _ & _ & _ & _ & Htu & Hk).
  destruct (Hbase (Host u) (serverOfPath (Path u)) region) as [Hb1 Hb2].
  assert (ServerSideEncryption tu = Getenv (cw_env w) "WALG_S3_SSE") as Es.
  { rewrite Htu. unfold Getenv, LookupEnv.
    destruct (cw_env w !! "WALG_S3_SSE_KMS_ID"%string),
             (cw_env w !! "WALG_S3_SSE"%string),
             (cw_env w !! "WALG_S3_STORAGE_CLASS"%string); cbn; auto. }
  assert (SSEKMSKeyId tu = Getenv (cw_env w) "WALG_S3_SSE_KMS_ID") as Ek.
  { rewrite Htu. unfold Getenv, LookupEnv.
    destruct (cw_env w !! "WALG_S3_SSE_KMS_ID"%string),
             (cw_env w !! "WALG_S3_SSE"%string),
             (cw_env w !! "WALG_S3_STORAGE_CLASS"%string); cbn; auto. }
  split; [exact Es|]. split; [exact Ek|].
  unfold sse_mismatch in Hk. rewrite <- Es, <- Ek in Hk.
  subst input. unfold createUploadInput. cbn [ui_ServerSideEncryption ui_SSEKMSKeyId].
  split.
  - intros Hs.
    assert (SSEKMSKeyId tu <> ""%string) as Hne by (intros Hz; apply Hk; left; auto).
    split; [exact Hne|]. rewrite Hs.
    rewrite !bool_decide_eq_true_2 by (auto; discriminate). auto.
  - intros Hs.
    assert (SSEKMSKeyId tu = ""%string) as Hz.
    { destruct (decide (SSEKMSKeyId tu = ""%string)) as [Hz|Hz]; [exact Hz|].
      exfalso. apply Hk. right. auto. }
    split; [exact Hz|]. rewrite Hz.
    rewrite (bool_decide_eq_false_2 (""%string <> ""%string)) by (intros Hx; apply Hx; reflexivity).
    rewrite andb_false_r. reflexivity.
Qed.

(** X12.  The server part of the prefix: the first character of the path
    is dropped whatever it is, and one trailing slash is dropped; an empty
    path gives the empty server. *)
Theorem serverOfPath_spec c l :
  serverOfPath "" = ""%string
  /\ serverOfPath (str (c :: l ++ ["/"%char])) = str l
  /\ (last l <> Some "/"%char -> serverOfPath (str (c :: l)) = str l).
Proof.
  split; [reflexivity|]. split.
  - unfold serverOfPath. rewrite chars_str. cbn [length drop].
    rewrite (bool_decide_eq_true_2 (0 < S (length (l ++ ["/"%char])))%nat) by lia.
    rewrite ?drop_0. rewrite last_snoc, length_app. cbn [length].
    rewrite (bool_decide_eq_true_2 (0 < length l + 1)%nat) by lia.
    rewrite (bool_decide_eq_true_2 (Some "/"%char = Some "/"%char)) by reflexivity.
    cbn [andb]. f_equal. rewrite take_app_length'; [reflexivity|lia].
  - intros Hl. unfold serverOfPath. rewrite chars_str. cbn [length drop].
    rewrite (bool_decide_eq_true_2 (0 < S (length l))%nat) by lia. rewrite ?drop_0.
    rewrite (bool_decide_eq_false_2 (last l = Some "/"%char)) by exact Hl.
    rewrite andb_false_r. reflexivity.
Qed.

(** X13.  [Configure] returns [UnsetEnvVarError] exactly when
    [WALE_S3_PREFIX] is unset or empty, and the error names that variable. *)
Theorem Configure_unset_prefix w :
  (Getenv (cw_env w) "WALE_S3_PREFIX" = ""%string ->
   Configure w = Err (UnsetEnvVarError ["WALE_S3_PREFIX"%string]))
  /\ (forall names, Configure w = Err (UnsetEnvVarError names) ->
        Getenv (cw_env w) "WALE_S3_PREFIX" = ""%string
        /\ names = ["WALE_S3_PREFIX"%string]).
Proof.
  split.
  - intros H. unfold Configure. rewrite bool_decide_eq_true_2 by exact H. reflexivity.
  - intros names H. unfold Configure in H.
    case_bool_decide as Hp; [injection H as <-; auto|]. exfalso.
    repeat match type of H with
           | (if ?b then _ else _) = _ => destruct b eqn:?; try discriminate H
           | bind_result ?r _ = _ =>
               destruct r eqn:?; cbn [bind_result] in H; try discriminate H
           end;
      repeat match goal with
             | E : wrap ?r _ = Err _ |- _ => destruct r; cbn [wrap] in E
             | E : (if ?b then _ else _) = Err _ |- _ => destruct b
             end; unfold sseKmsError in *; congruence.
Qed.

(** X14.  [UploadWal] without verification never asks for the ETag and
    always returns.  When the file cannot be opened nothing is uploaded and
    the result is the empty string with the wrapped error; otherwise the
    object is uploaded once and the result is its key with the error of the
    upload, if any. *)
Theorem UploadWal_no_verify w tu path pre :
  let run := UploadWal w tu path pre false in
  filter is_getETag (fst run) = []
  /\ (exists r, snd run = Returns r)
  /\ (forall e, uw_Open w path = Err e ->
        filter is_upload (fst run) = []
        /\ snd run = Returns (""%string,
                              Some (Wrapped e ("UploadWal: failed to open file " +:+ path))))
  /\ (forall f, uw_Open w path = Ok f ->
        length (filter is_upload (fst run)) = 1%nat
        /\ snd run
           = Returns (walKey w tu path,
                      snd (uw_Upload w (createUploadInput tu (walKey w tu path))
                             (uw_Compress w f)))).
Proof.
  intros run. subst run. unfold UploadWal, TarUploader_upload.
  destruct (uw_Open w path) as [f|e] eqn:Hopen.
  - destruct (uw_Upload w (createUploadInput tu (walKey w tu path)) (uw_Compress w f))
      as [n [e|]] eqn:Hup; cbn.
    + split; [reflexivity|]. split; [eauto|]. split; [intros e' He'; discriminate|].
      intros f' [= <-]. rewrite Hup. auto.
    + split; [reflexivity|]. split; [eauto|]. split; [intros e' He'; discriminate|].
      intros f' [= <-]. rewrite Hup. auto.
  - cbn. split; [reflexivity|]. split; [eauto|]. split.
    + intros e' [= <-]. auto.
    + intros f Hf. discriminate.
Qed.

(** X15.  Whenever [UploadWal] returns, with or without verification:
    either the file could not be opened, nothing else was done and the path
    returned is empty; or the path returned is the key of the object, the
    error returned is the error of the one upload that was made, so that a
    verified ETag does not hide a failed upload. *)
Theorem UploadWal_returns w tu path pre verify p err :
  snd (UploadWal w tu path pre verify) = Returns (p, err) ->
  (exists e, uw_Open w path = Err e /\ p = ""%string
             /\ err = Some (Wrapped e ("UploadWal: failed to open file " +:+ path))
             /\ fst (UploadWal w tu path pre verify) = [EvOpen path])
  \/ (exists f, uw_Open w path = Ok f /\ p = walKey w tu path
                /\ err = snd (uw_Upload w (createUploadInput tu (walKey w tu path))
                                (uw_Compress w f))
                /\ filter is_upload (fst (UploadWal w tu path pre verify))
                   = [EvUpload (walKey w tu path)]).
Proof.
  unfold UploadWal, TarUploader_upload.
  destruct (uw_Open w path) as [f|e] eqn:Hopen.
  - intros H. right. exists f. split; [reflexivity|].
    destruct (uw_Upload w (createUploadInput tu (walKey w tu path)) (uw_Compress w f))
      as [n [e|]] eqn:Hup; destruct verify;
      repeat match type of H with
             | context [match ?x with _ => _ end] => destruct x; try discriminate H
             | context [if ?b then _ else _] => destruct b; try discriminate H
             end;
      cbn in H |- *; injection H as <- <-; rewrite ?filter_app; cbn; auto.
  - intros [= <- <-]. left. exists e. auto.
Qed.

Lemma Configure_result_witness :
  exists tu pre u,
    Configure sample_world = Ok (tu, pre)
    /\ cw_url_Parse sample_world (Getenv (cw_env sample_world) "WALE_S3_PREFIX") = Ok u
    /\ Scheme u <> ""%string /\ Host u <> ""%string
    /\ Bucket pre = Host u
    /\ Server pre = serverOfPath (Path u)
    /\ Upl tu = Some {| PartSize := 20971520;
                        Concurrency := cw_getMaxUploadConcurrency sample_world 10 |}.
Proof.
  destruct (Configure sample_world) as [[tu pre]|] eqn:E; [|vm_compute in E; discriminate].
  destruct (Configure_result sample_world tu pre E)
    as (u & H1 & H2 & H3 & H4 & H5 & H6 & _).
  exists tu, pre, u. auto 10.
Defined.

Lemma Configure_region_witness :
  let w := with_env {[ "WALE_S3_PREFIX"%string := "s3://bucket/server"%string ]}
             {| cw_env := ∅;
                cw_url_Parse := cw_url_Parse sample_world;
                cw_credentials_Get := Ok tt;
                cw_findS3BucketRegion :=
                  findS3BucketRegion (fun _ => Ok tt) (fun _ => Ok None);
                cw_NewSession := fun _ => Ok tt;
                cw_NewTarUploader := cw_NewTarUploader sample_world;
                cw_getMaxUploadConcurrency := fun d => d |} in
  exists tu pre, Configure w = Ok (tu, pre) /\ region tu = "us-east-1"%string.
Proof.
  intros w.
  destruct (Configure w) as [[tu pre]|] eqn:E; [|vm_compute in E; discriminate].
  destruct (Configure_region w (fun _ => Ok tt) (fun _ => Ok None) tu pre eq_refl E)
    as (u & reg & _ & _ & _ & Hreg & _ & Hlookup).
  exists tu, pre. split; [reflexivity|].
  destruct Hlookup as [_ [[_ ->]|Hc]]; [reflexivity| |discriminate Hc].
  exact Hreg.
Defined.

Lemma Configure_createUploadInput_kms_witness :
  let w := with_env (setenv "WALG_S3_SSE" (Some "aws:kms"%string)
                       (setenv "WALG_S3_SSE_KMS_ID" (Some "key-1"%string)
                          (cw_env sample_world))) sample_world in
  exists tu pre,
    Configure w = Ok (tu, pre)
    /\ ui_ServerSideEncryption (createUploadInput tu "k") = Some "aws:kms"%string
    /\ ui_SSEKMSKeyId (createUploadInput tu "k") = Some "key-1"%string.
Proof.
  intros w.
  destruct (Configure w) as [[tu pre]|] eqn:E; [|vm_compute in E; discriminate].
  destruct (Configure_createUploadInput_kms w tu pre "k" (fun _ _ _ => conj eq_refl eq_refl) E)
    as (Hs & Hk & Hkms & _).
  exists tu, pre. split; [reflexivity|].
  destruct Hkms as (_ & H1 & H2); [rewrite Hs; vm_compute; reflexivity|].
  split; [exact H1|]. rewrite H2, Hk. vm_compute. reflexivity.
Defined.

Lemma UploadWal_returns_witness :
  let run := UploadWal (sample_storage "900150983cd24fb0d6963f7d28e17f72")
               sample_tarball.(tb_tu) "/pg/pg_xlog/000000010000000000000051"
               {| Bucket := "bucket"; Server := "server" |} true in
  snd run = Returns ("server/wal_005//pg/pg_xlog/000000010000000000000051.lz4"%string, None)
  /\ filter is_upload (fst run)
     = [EvUpload "server/wal_005//pg/pg_xlog/000000010000000000000051.lz4"%string].
Proof.
  intros run.
  destruct (UploadWal_returns (sample_storage "900150983cd24fb0d6963f7d28e17f72")
              sample_tarball.(tb_tu) "/pg/pg_xlog/000000010000000000000051"
              {| Bucket := "bucket"; Server := "server" |} true
              "server/wal_005//pg/pg_xlog/000000010000000000000051.lz4"%string None)
    as [(e & He & _)|(f & _ & _ & _ & Hup)].
  - vm_compute. reflexivity.
  - discriminate He.
  - split; [vm_compute; reflexivity|exact Hup].
Defined.
